(** * eslint-plugin-use-css-token: the token registry and the literal matcher

    A shallow embedding of [src/index.ts]: the PostCSS plugin [colorMod]
    (its [Declaration] hook fills the module-level object [tokenColors] and
    rewrites the declaration's value), the run of PostCSS that calls the
    hook, again on every declaration the hook rewrote, and the ESLint rule
    [create] (its [getToken] reverse lookup and its [Property] visitor).

    Strings are [string], one character per code unit; the string methods
    the source calls ([includes], [indexOf], [slice], [replace],
    [startsWith]) are written out with the semantics ECMAScript gives them,
    indices being [Z] because [indexOf] answers [-1].  The object
    [tokenColors] is an association list in property order.  Module state
    ([tokenColors], the console, the reports handed to ESLint) is threaded
    through a small state monad. *)

From Stdlib Require Import String Ascii List ZArith Lia Bool.
Import ListNotations.

Local Open Scope string_scope.
Local Open Scope Z_scope.

(** ** String primitives of the host language *)

Module Js.

(** [s.startsWith(pre)] *)
Definition startsWith (s pre : string) : bool := prefix pre s.

(** The suffix of [s] that starts at position [n]. *)
Fixpoint drop (n : nat) (s : string) : string :=
  match n, s with
  | O, _ => s
  | S _, EmptyString => EmptyString
  | S n', String _ s' => drop n' s'
  end.

(** Left-to-right scan: the first position, counted from [pos], at which
    [sub] is a prefix of what remains of [s]. *)
Fixpoint scan (sub s : string) (pos : nat) : option nat :=
  if prefix sub s then Some pos
  else match s with
       | EmptyString => None
       | String _ s' => scan sub s' (S pos)
       end.

(** [s.indexOf(sub, from)]: [from] is clamped to [0 .. s.length]; the
    answer is [-1] when [sub] does not occur at or after it. *)
Definition indexOf (s sub : string) (from : Z) : Z :=
  let start := Z.to_nat (Z.min (Z.max from 0) (Z.of_nat (String.length s))) in
  match scan sub (drop start s) start with
  | Some k => Z.of_nat k
  | None => -1
  end.

(** [s.includes(sub)] *)
Definition includes (s sub : string) : bool :=
  match scan sub s O with
  | Some _ => true
  | None => false
  end.

(** [s.slice(start, end)]: negative indices count from the end, both are
    clamped to the string, and an end before the start gives [""]. *)
Definition slice (s : string) (start end_ : Z) : string :=
  let len := Z.of_nat (String.length s) in
  let from := if start <? 0 then Z.max (len + start) 0 else Z.min start len in
  let to := if end_ <? 0 then Z.max (len + end_) 0 else Z.min end_ len in
  let span := Z.max (to - from) 0 in
  substring (Z.to_nat from) (Z.to_nat span) s.

(** The replacement text of [String.prototype.replace] with a string
    pattern (GetSubstitution with no captures): [$$] is a dollar sign, [$&]
    the matched text, [$`] what precedes the match, [$'] what follows it;
    any other [$] stands for itself. *)
Fixpoint getSubstitution (matched before after repl : string) : string :=
  match repl with
  | EmptyString => EmptyString
  | String c rest =>
      if Ascii.eqb c "$" then
        match rest with
        | EmptyString => String c EmptyString
        | String c' rest' =>
            if Ascii.eqb c' "$" then
              String "$" (getSubstitution matched before after rest')
            else if Ascii.eqb c' "&" then
              matched ++ getSubstitution matched before after rest'
            else if Ascii.eqb c' "`" then
              before ++ getSubstitution matched before after rest'
            else if Ascii.eqb c' "'" then
              after ++ getSubstitution matched before after rest'
            else String c (getSubstitution matched before after rest)
        end
      else String c (getSubstitution matched before after rest)
  end.

(** [s.replace(pat, repl)] with a string pattern: only the first
    occurrence is replaced; [s] is returned when there is none. *)
Definition replace (s pat repl : string) : string :=
  match scan pat s O with
  | None => s
  | Some k =>
      let before := substring O k s in
      let after := drop (k + String.length pat) s in
      before ++ getSubstitution pat before after repl ++ after
  end.

End Js.

(** ** The object [tokenColors]

    An object with string keys, in the order [Object.keys] lists them.  For
    keys that are not array indices that is the order in which the keys were
    first added; a key that begins with [--] is never an array index, and
    those are the only keys the plugin adds.  Assigning to a key that exists
    keeps its place. *)

Definition Registry := list (string * string).

(** [obj[key]], [None] for [undefined]. *)
Fixpoint get (key : string) (obj : Registry) : option string :=
  match obj with
  | [] => None
  | (k, v) :: rest => if String.eqb k key then Some v else get key rest
  end.

(** [obj[key] = v] *)
Fixpoint set (key v : string) (obj : Registry) : Registry :=
  match obj with
  | [] => [(key, v)]
  | (k, v') :: rest =>
      if String.eqb k key then (key, v) :: rest else (k, v') :: set key v rest
  end.

(** [Object.keys(obj)] *)
Definition keys (obj : Registry) : list string := map fst obj.

(** ** Values that cross the two external interfaces *)

(** A PostCSS declaration node, as far as the plugin reads and writes it. *)
Record Decl := mkDecl { prop : string; value : string }.

(** What [node.value.value] can hold: a string, or something else (a
    number, a boolean, [null], [undefined], ...) of which only the text a
    template literal would print is kept. *)
Inductive Literal :=
| LitString (s : string)
| LitUndefined
| LitOther (printed : string).

(** An ESLint [Property] node: [node.key.name] ([None] when the key has no
    [name]) and [node.value.value]. *)
Record Node := mkNode { key_name : option string; node_value : Literal }.

(** One call of [console.log('mod', context, end, value)]. *)
Record LogLine := mkLog { log_context : string; log_end : Z; log_value : string }.

(** One call of [context.report({ node, message })]. *)
Record Report := mkReport { report_node : Node; message : string }.

(** ** Module state and the monad that threads it *)

Record World := mkWorld {
  tokenColors : Registry;
  console : list LogLine;
  reports : list Report
}.

(** [let tokenColors = {}] at module load. *)
Definition initial : World := mkWorld [] [] [].

Definition M (A : Type) : Type := World -> A * World.

Definition ret {A} (a : A) : M A := fun w => (a, w).

Definition bind {A B} (m : M A) (f : A -> M B) : M B :=
  fun w => let (a, w') := m w in f a w'.

Notation "x <- m ;; k" := (bind m (fun x => k))
  (at level 61, m at next level, right associativity).
Notation "m ;; k" := (bind m (fun _ => k))
  (at level 61, right associativity).

Definition exec {A} (m : M A) (w : World) : World := snd (m w).
Definition eval {A} (m : M A) (w : World) : A := fst (m w).

Definition when (c : bool) (m : M unit) : M unit := if c then m else ret tt.

Definition assignToken (key v : string) : M unit :=
  fun w => (tt, mkWorld (set key v (tokenColors w)) (console w) (reports w)).

Definition consoleLog (l : LogLine) : M unit :=
  fun w => (tt, mkWorld (tokenColors w) (console w ++ [l]) (reports w)).

Definition contextReport (r : Report) : M unit :=
  fun w => (tt, mkWorld (tokenColors w) (console w) (reports w ++ [r])).

Definition readTokenColors : M Registry := fun w => (tokenColors w, w).

(** ** The PostCSS plugin [colorMod] *)

Module colorMod.

(** The [const]s of the [Declaration] hook, each as the function of
    [decl.value] the source computes. *)

Definition isColor (value : string) : bool :=
  Js.includes value "#" || Js.includes value "rgb(" || Js.includes value "rgba(".

Definition node (value : string) : Z :=
  if Js.includes value "#" then Js.indexOf value "#" 0
  else Js.indexOf value "rgb" 0.

Definition context (value : string) : string :=
  if Js.includes value "#" then "#" else "rgb".

Definition end_ (value : string) : Z :=
  Js.indexOf value ")" (node value) + 1.

Definition hexOrRgba (value : string) : string :=
  Js.slice value (node value) (end_ value).

Definition mod_ (value : string) : string :=
  "color(" ++ hexOrRgba value ++ ")".

(** The first [if] of the hook: the token is recorded. *)
Definition recordToken (decl : Decl) : M unit :=
  let value' := value decl in
  when (Js.startsWith (prop decl) "--" && isColor value')
       (assignToken (prop decl) (value decl)).

(** The second [if] of the hook: the value is rewritten.  The hook returns
    the declaration it was given, with the [value] it may have assigned. *)
Definition rewriteValue (decl : Decl) : M Decl :=
  let value' := value decl in
  if Js.includes value' "#" || Js.includes value' "rgb(" || Js.includes value' "rgba("
  then
    consoleLog (mkLog (context value') (end_ value') value') ;;
    ret (mkDecl (prop decl)
                (Js.replace value' (context value' ++ hexOrRgba value') (mod_ value')))
  else ret decl.

(** [Declaration(decl)] *)
Definition Declaration (decl : Decl) : M Decl :=
  recordToken decl ;;
  rewriteValue decl.

End colorMod.

(** The hook called on each element of [css] in turn: what a run of PostCSS
    does to the module state when [css] lists the declarations as the hook
    receives them, the calls PostCSS repeats on rewritten declarations
    included.  Which calls a style sheet gives rise to is [PostCSS.sync]
    below. *)
Fixpoint process (css : list Decl) : M unit :=
  match css with
  | [] => ret tt
  | decl :: rest => colorMod.Declaration decl ;; process rest
  end.

(** ** The ESLint rule *)

(** [a === token] for [a = tokenColors[key]], a string or [undefined]. *)
Definition strictEq (a : option string) (token : Literal) : bool :=
  match a, token with
  | Some v, LitString s => String.eqb v s
  | None, LitUndefined => true
  | _, _ => false
  end.

(** Truthiness of what [Array.prototype.find] returned here. *)
Definition truthy (r : option string) : bool :=
  match r with
  | Some s => negb (String.eqb s "")
  | None => false
  end.

(** Template-literal printing. *)
Definition printToken (r : option string) : string :=
  match r with
  | Some s => s
  | None => "undefined"
  end.

Definition printLiteral (l : Literal) : string :=
  match l with
  | LitString s => s
  | LitUndefined => "undefined"
  | LitOther printed => printed
  end.

(** [Object.keys(tokenColors).find((key) => tokenColors[key] === token)] *)
Definition getToken (token : Literal) : M (option string) :=
  obj <- readTokenColors ;;
  ret (find (fun key => strictEq (get key obj) token) (keys obj)).

(** The [Property] visitor. *)
Definition Property (node : Node) : M unit :=
  match key_name node with
  | Some name =>
      if String.eqb name "color" then
        let value' := node_value node in
        found <- getToken value' ;;
        if truthy found then
          token <- getToken value' ;;
          contextReport
            (mkReport node
               ("Use token '" ++ printToken token
                  ++ "' instead of hard-coded color '" ++ printLiteral value' ++ "'."))
        else ret tt
      else ret tt
  | None => ret tt
  end.

(** [create(context)] for a run of PostCSS in which the hook received the
    declarations [css]: the calls are made, then the visitor is handed to
    ESLint.  [createFromSheet] below starts from the style sheet. *)
Definition create (css : list Decl) : M (Node -> M unit) :=
  process css ;;
  ret Property.

(** ESLint calling a visitor on the [Property] nodes it meets. *)
Fixpoint traverse (visitor : Node -> M unit) (nodes : list Node) : M unit :=
  match nodes with
  | [] => ret tt
  | n :: rest => visitor n ;; traverse visitor rest
  end.

(** ** The run of PostCSS

    [postcss().use(colorMod()).process(css).content] parses the style sheet
    and runs the plugin synchronously.  PostCSS keeps a clean flag on every
    node; the parser leaves it unset, a walk sets it just before the node is
    handed to the hook, and assigning a different [value] to a declaration
    unsets it again, on the declaration and on its ancestors.  Walks over
    the tree are repeated while the root is not clean, and a walk goes only
    into nodes that are not clean, in document order.  Only declarations
    have a hook here, so the tree is the list of its declarations. *)

Module PostCSS.

Record DeclNode := mkDeclNode { decl : Decl; isClean : bool }.

(** The tree as the parser leaves it. *)
Definition parsed (sheet : list Decl) : list DeclNode :=
  map (fun d => mkDeclNode d false) sheet.

(** One walk: every declaration that is not clean is handed to the hook,
    and is clean afterwards unless the hook gave it another value. *)
Fixpoint walkSync (nodes : list DeclNode) : M (list DeclNode) :=
  match nodes with
  | [] => ret []
  | n :: rest =>
      n' <- (if isClean n then ret n
             else
               d' <- colorMod.Declaration (decl n) ;;
               ret (mkDeclNode d' (String.eqb (value d') (value (decl n))))) ;;
      rest' <- walkSync rest ;;
      ret (n' :: rest')
  end.

(** [while (!root[isClean]) walkSync(root)].  Nothing in the source bounds
    the number of walks; [fuel] does here, and [None] says that it ran out
    with a declaration still not clean. *)
Fixpoint sync (fuel : nat) (nodes : list DeclNode) : M (option (list DeclNode)) :=
  if forallb isClean nodes then ret (Some nodes)
  else
    match fuel with
    | O => ret None
    | S fuel' => nodes' <- walkSync nodes ;; sync fuel' nodes'
    end.

End PostCSS.

(** [create(context)] from the declarations of the style sheet at
    [cssFile]: the visitor is returned when the run of PostCSS ends. *)
Definition createFromSheet (fuel : nat) (sheet : list Decl)
  : M (option (Node -> M unit)) :=
  done <- PostCSS.sync fuel (PostCSS.parsed sheet) ;;
  match done with
  | Some _ => ret (Some Property)
  | None => ret None
  end.

(** ESLint calling the visitor of [createFromSheet], if there is one. *)
Definition visitWith (visitor : option (Node -> M unit)) (nodes : list Node)
  : M unit :=
  match visitor with
  | Some v => traverse v nodes
  | None => ret tt
  end.

(** ** [parseCss] *)

Module RegExp.

(** [\s] on one code unit: tab, line feed, vertical tab, form feed,
    carriage return, space and no-break space. *)
Definition isSpace (c : ascii) : bool :=
  let n := nat_of_ascii c in
  ((9 <=? n) && (n <=? 13) || (n =? 32) || (n =? 160))%nat.

(** [[\w-]]: a digit, a letter, an underscore or a hyphen. *)
Definition isWordOrHyphen (c : ascii) : bool :=
  let n := nat_of_ascii c in
  ((48 <=? n) && (n <=? 57) || (65 <=? n) && (n <=? 90)
   || (97 <=? n) && (n <=? 122) || (n =? 95) || (n =? 45))%nat.

(** The longest run of characters passing [f] at the head of [s]. *)
Fixpoint takeWhile (f : ascii -> bool) (s : string) : string :=
  match s with
  | EmptyString => EmptyString
  | String c s' => if f c then String c (takeWhile f s') else EmptyString
  end.

(** The last position of a closing parenthesis in [r]. *)
Fixpoint lastClose (r : string) : option nat :=
  match r with
  | EmptyString => None
  | String c r' =>
      match lastClose r' with
      | Some n => Some (S n)
      | None => if Ascii.eqb c ")" then Some O else None
      end
  end.

(** [/var\(--\S+\)/] tried at the head of [s]: after [var(--] the greedy
    [\S+] takes the whole run of non-space characters and gives back as
    little as lets [\)] match, so the match ends at the last closing
    parenthesis of the run, which cannot be the first character of it. *)
Definition cssRegex (s : string) : option string :=
  if prefix "var(--" s then
    match takeWhile (fun c => negb (isSpace c)) (Js.drop 6 s) with
    | EmptyString => None
    | String c run =>
        match lastClose run with
        | Some n => Some ("var(--" ++ String c (substring 0 (S n) run))
        | None => None
        end
    end
  else None.

(** [/\$[\w-]+/] tried at the head of [s]. *)
Definition scssRegex (s : string) : option string :=
  match s with
  | EmptyString => None
  | String c rest =>
      if Ascii.eqb c "$" then
        match takeWhile isWordOrHyphen rest with
        | EmptyString => None
        | String c' run => Some (String c (String c' run))
        end
      else None
  end.

(** The [g] flag: the matches from left to right, the search resuming
    where the last match ended.  [skip] counts the characters of [s] still
    covered by the last match. *)
Fixpoint matchAll (re : string -> option string) (skip : nat) (s : string)
  {struct s} : list string :=
  match skip with
  | S k =>
      match s with
      | EmptyString => []
      | String _ s' => matchAll re k s'
      end
  | O =>
      match re s with
      | Some m =>
          m :: match s with
               | EmptyString => []
               | String _ s' => matchAll re (String.length m - 1) s'
               end
      | None =>
          match s with
          | EmptyString => []
          | String _ s' => matchAll re 0 s'
          end
      end
  end.

(** [s.match(re)] for a global [re]: [null] when nothing matches. *)
Definition match_ (re : string -> option string) (s : string)
  : option (list string) :=
  match matchAll re 0 s with
  | [] => None
  | found => Some found
  end.

End RegExp.

(** [found || []] *)
Definition orEmpty (found : option (list string)) : list string :=
  match found with
  | Some l => l
  | None => []
  end.

(** [[...new Set(xs)]]: the elements in the order they were first added. *)
Definition uniqueOf (xs : list string) : list string :=
  fold_left
    (fun acc x => if existsb (String.eqb x) acc then acc else (acc ++ [x])%list)
    xs [].

Definition parseCss (css : string) : list string :=
  let cssMatches := orEmpty (RegExp.match_ RegExp.cssRegex css) in
  let scssMatches := orEmpty (RegExp.match_ RegExp.scssRegex css) in
  let cssTokens := uniqueOf cssMatches in
  let scssTokens := uniqueOf scssMatches in
  (cssTokens ++ scssTokens)%list.

(** ** Specification vocabulary *)

(** [sub] occurs in [s] at position [k]. *)
Definition occurs_at (sub s : string) (k : nat) : Prop :=
  (k <= String.length s)%nat /\ substring k (String.length sub) s = sub.

(** [k] is the first position at or after [from] where [sub] occurs. *)
Definition first_at (sub s : string) (from k : nat) : Prop :=
  (from <= k)%nat /\ occurs_at sub s k /\
  forall j, (from <= j < k)%nat -> ~ occurs_at sub s j.

(** A declaration the plugin admits to the registry. *)
Definition admitted (d : Decl) : bool :=
  Js.startsWith (prop d) "--" && colorMod.isColor (value d).

(** The value of the last admitted declaration named [p], if any. *)
Fixpoint lastAdmitted (p : string) (css : list Decl) : option string :=
  match css with
  | [] => None
  | d :: rest =>
      match lastAdmitted p rest with
      | Some v => Some v
      | None => if String.eqb (prop d) p && admitted d then Some (value d) else None
      end
  end.

(** The names a style sheet defines, in the order of their first admitted
    declaration, leaving out those in [seen]. *)
Fixpoint firstAdmissions (seen : list string) (css : list Decl) : list string :=
  match css with
  | [] => []
  | d :: rest =>
      if admitted d && negb (existsb (String.eqb (prop d)) seen)
      then prop d :: firstAdmissions (prop d :: seen) rest
      else firstAdmissions seen rest
  end.

Definition insertionOrder (css : list Decl) : list string :=
  firstAdmissions [] css.

(** Every key of the registry is a custom-property name. *)
Definition customKeys (obj : Registry) : Prop :=
  Forall (fun k => Js.startsWith k "--" = true) (keys obj).

(** The registry after one declaration. *)
Definition recordInto (d : Decl) (obj : Registry) : Registry :=
  if admitted d then set (prop d) (value d) obj else obj.

(** The registry is a map: no key twice, every key a custom-property
    name, every value a text with a color marker. *)
Definition wellFormed (obj : Registry) : Prop :=
  NoDup (keys obj) /\
  forall p v, get p obj = Some v ->
              Js.startsWith p "--" = true /\ colorMod.isColor v = true.

(** The console line the hook writes for a declaration. *)
Definition logLineOf (d : Decl) : LogLine :=
  mkLog (colorMod.context (value d)) (colorMod.end_ (value d)) (value d).

(** Every character of [s] passes [f]. *)
Fixpoint allChars (f : ascii -> bool) (s : string) : bool :=
  match s with
  | EmptyString => true
  | String c s' => f c && allChars f s'
  end.

(** What the hook returns for a declaration; the module state has no part
    in it. *)
Definition rewritten (d : Decl) : Decl := eval (colorMod.Declaration d) initial.

(** The hook's rewrite leaves the declaration as it was, or leaves a value
    with no color marker: a second call of the hook on it records nothing. *)
Definition settled (d : Decl) : bool :=
  String.eqb (value (rewritten d)) (value d)
  || negb (colorMod.isColor (value (rewritten d))).

(** One walk on one node, and the calls a walk makes. *)
Definition walked (n : PostCSS.DeclNode) : PostCSS.DeclNode :=
  if PostCSS.isClean n then n
  else PostCSS.mkDeclNode (rewritten (PostCSS.decl n))
         (String.eqb (value (rewritten (PostCSS.decl n))) (value (PostCSS.decl n))).

Definition callsOfWalk (nodes : list PostCSS.DeclNode) : list Decl :=
  map PostCSS.decl (filter (fun n => negb (PostCSS.isClean n)) nodes).

(** The calls of the hook in a run that ends within [fuel] walks. *)
Fixpoint callsOf (fuel : nat) (nodes : list PostCSS.DeclNode) : option (list Decl) :=
  if forallb PostCSS.isClean nodes then Some []
  else
    match fuel with
    | O => None
    | S fuel' =>
        match callsOf fuel' (map walked nodes) with
        | Some later => Some (callsOfWalk nodes ++ later)%list
        | None => None
        end
    end.

(** ** Sample inputs *)

(** A token with two colors in its value, defined again further down. *)
Definition twoColorSheet : list Decl :=
  [mkDecl "--a" "#111 #222"; mkDecl "--a" "#333"].

(** A shadow with two hex colors. *)
Definition shadowSheet : list Decl :=
  [mkDecl "--shadow" "0 0 1px #000, 0 0 2px #fff"].

(** A token defined twice, each time by one hex color. *)
Definition twiceSheet : list Decl :=
  [mkDecl "--a" "#111"; mkDecl "--a" "#222"].

(** Two one-line style sheets with different token names. *)
Definition sheetA : list Decl := [mkDecl "--a" "#111"].
Definition sheetB : list Decl := [mkDecl "--b" "#222"].

(** A style sheet in which two names carry the same color. *)
Definition tiedSheet : list Decl :=
  [mkDecl "--b" "#111"; mkDecl "--a" "#111"; mkDecl "--b" "#111"].

(** A style sheet with one token and one plain declaration. *)
Definition brandSheet : list Decl :=
  [mkDecl "--brand" "#112233"; mkDecl "color" "#112233"].

(** A value in which [rgb] occurs before the color. *)
Definition shadowedRgb : string := "var(--rgb-base, rgb(0,0,0))".

(** A custom property holding a hex color, which has no closing parenthesis. *)
Definition unclosedHex : Decl := mkDecl "--a" "#111".

(** ** Strings: the scan finds the first occurrence *)

Section StringFacts.

Lemma drop_0 s : Js.drop 0 s = s.
Proof. destruct s; reflexivity. Qed.

Lemma drop_empty n : Js.drop n "" = "".
Proof. destruct n; reflexivity. Qed.

Lemma drop_drop n : forall m s, Js.drop n (Js.drop m s) = Js.drop (m + n) s.
Proof.
  intros m; induction m as [|m IH]; intros s; simpl.
  - reflexivity.
  - destruct s as [|c s]; simpl.
    + now rewrite drop_empty.
    + apply IH.
Qed.

Lemma length_drop n : forall s, String.length (Js.drop n s) = (String.length s - n)%nat.
Proof.
  induction n as [|n IH]; intros [|c s]; simpl; auto.
Qed.

Lemma substring_drop k : forall n s, substring k n s = substring 0 n (Js.drop k s).
Proof.
  induction k as [|k IH]; intros n [|c s]; simpl; auto.
  destruct n; reflexivity.
Qed.

Lemma substring_zero_length k : forall s, substring k 0 s = "".
Proof.
  induction k as [|k IH]; intros [|c s]; simpl; auto.
Qed.

Lemma prefix_drop_iff sub s k :
  prefix sub (Js.drop k s) = true <-> substring k (String.length sub) s = sub.
Proof.
  rewrite substring_drop. apply prefix_correct.
Qed.

Lemma occurs_at_iff sub s k :
  occurs_at sub s k <-> (k <= String.length s)%nat /\ prefix sub (Js.drop k s) = true.
Proof.
  unfold occurs_at. rewrite prefix_drop_iff. tauto.
Qed.

Lemma not_occurs_at sub s k :
  (k <= String.length s)%nat ->
  prefix sub (Js.drop k s) = false -> ~ occurs_at sub s k.
Proof.
  intros Hk Hp [_ Ho]. apply prefix_drop_iff in Ho. congruence.
Qed.

Lemma scan_Some sub : forall s pos k,
  Js.scan sub s pos = Some k ->
  exists j, k = (pos + j)%nat /\ (j <= String.length s)%nat /\
            prefix sub (Js.drop j s) = true /\
            forall i, (i < j)%nat -> prefix sub (Js.drop i s) = false.
Proof.
  induction s as [|c s IH]; intros pos k H.
  - cbn [Js.scan] in H. destruct (prefix sub "") eqn:E; [|discriminate].
    injection H as <-. exists 0%nat. repeat split; auto; try lia.
  - cbn [Js.scan] in H. destruct (prefix sub (String c s)) eqn:E.
    + injection H as <-. exists 0%nat. repeat split; auto; simpl; lia.
    + apply IH in H. destruct H as (j & -> & Hj & Hp & Hmin).
      exists (S j). repeat split; simpl; auto; try lia.
      intros [|i] Hi; simpl; auto. apply Hmin. lia.
Qed.

Lemma scan_None sub : forall s pos,
  Js.scan sub s pos = None -> forall j, prefix sub (Js.drop j s) = false.
Proof.
  induction s as [|c s IH]; intros pos H j.
  - cbn [Js.scan] in H. rewrite drop_empty. destruct (prefix sub ""); congruence.
  - cbn [Js.scan] in H. destruct (prefix sub (String c s)) eqn:E; [discriminate|].
    destruct j as [|j]; simpl; eauto.
Qed.

Lemma scan_total sub : forall s pos j,
  prefix sub (Js.drop j s) = true -> exists k, Js.scan sub s pos = Some k.
Proof.
  intros s pos j H. destruct (Js.scan sub s pos) eqn:E; eauto.
  rewrite (scan_None _ _ _ E j) in H. discriminate.
Qed.

Lemma first_at_unique sub s from k k' :
  first_at sub s from k -> first_at sub s from k' -> k = k'.
Proof.
  intros (Hk & Ho & Hmin) (Hk' & Ho' & Hmin').
  destruct (Nat.lt_trichotomy k k') as [Hlt | [Heq | Hgt]]; auto.
  - exfalso. apply (Hmin' k); auto.
  - exfalso. apply (Hmin k'); auto.
Qed.

(** What [indexOf] answers from a position inside the string. *)
Lemma indexOf_scan s sub a :
  (a <= String.length s)%nat ->
  match Js.scan sub (Js.drop a s) a with
  | Some k => first_at sub s a k /\ Js.indexOf s sub (Z.of_nat a) = Z.of_nat k
  | None => (forall k, (a <= k)%nat -> ~ occurs_at sub s k) /\
            Js.indexOf s sub (Z.of_nat a) = -1
  end.
Proof.
  intros Ha. unfold Js.indexOf.
  replace (Z.to_nat (Z.min (Z.max (Z.of_nat a) 0) (Z.of_nat (String.length s))))
    with a by lia.
  destruct (Js.scan sub (Js.drop a s) a) as [k|] eqn:E.
  - split; [|reflexivity].
    apply scan_Some in E. destruct E as (j & -> & Hj & Hp & Hmin).
    rewrite length_drop in Hj. rewrite drop_drop in Hp.
    split; [lia|]. split.
    + apply occurs_at_iff. split; [lia | exact Hp].
    + intros i Hi. apply not_occurs_at; [lia|].
      replace i with (a + (i - a))%nat by lia.
      rewrite <- drop_drop. apply Hmin. lia.
  - split; [|reflexivity].
    intros k Hk [Hlen Ho]. apply prefix_drop_iff in Ho.
    pose proof (scan_None _ _ _ E (k - a)%nat) as Hn.
    rewrite drop_drop in Hn. replace (a + (k - a))%nat with k in Hn by lia.
    congruence.
Qed.

Lemma indexOf_first_at s sub a k :
  (a <= String.length s)%nat -> first_at sub s a k ->
  Js.indexOf s sub (Z.of_nat a) = Z.of_nat k.
Proof.
  intros Ha Hf. pose proof (indexOf_scan s sub a Ha) as H.
  destruct (Js.scan sub (Js.drop a s) a) as [k'|].
  - destruct H as [Hf' ->]. f_equal. eapply first_at_unique; eauto.
  - destruct H as [Hno _]. destruct Hf as (Hk & Ho & _).
    exfalso. exact (Hno k Hk Ho).
Qed.

Lemma indexOf_absent s sub a :
  (a <= String.length s)%nat ->
  (forall k, (a <= k)%nat -> ~ occurs_at sub s k) ->
  Js.indexOf s sub (Z.of_nat a) = -1.
Proof.
  intros Ha Hno. pose proof (indexOf_scan s sub a Ha) as H.
  destruct (Js.scan sub (Js.drop a s) a) as [k'|].
  - destruct H as [(Hk & Ho & _) _]. exfalso. exact (Hno k' Hk Ho).
  - apply H.
Qed.

Lemma includes_first s sub :
  Js.includes s sub = true ->
  exists k, first_at sub s 0 k /\ Js.indexOf s sub 0 = Z.of_nat k.
Proof.
  unfold Js.includes. intros H.
  pose proof (indexOf_scan s sub 0 (Nat.le_0_l _)) as Hs.
  rewrite drop_0 in Hs. destruct (Js.scan sub s 0) as [k|]; [|discriminate].
  exists k. exact Hs.
Qed.

Lemma includes_iff s sub :
  Js.includes s sub = true <-> exists k, occurs_at sub s k.
Proof.
  split.
  - intros H. apply includes_first in H. destruct H as (k & (_ & Ho & _) & _). eauto.
  - intros (k & Ho). apply occurs_at_iff in Ho. destruct Ho as [_ Hp].
    unfold Js.includes. destruct (scan_total sub s 0 k Hp) as [k' ->]. reflexivity.
Qed.

(** A string that starts with [a ++ b] starts with [a]. *)
Lemma prefix_app_l a : forall b s, prefix (a ++ b) s = true -> prefix a s = true.
Proof.
  induction a as [|c a IH]; intros b s H.
  - destruct s; reflexivity.
  - destruct s as [|c' s]; simpl in *; [discriminate|].
    destruct (ascii_dec c c'); [eauto | discriminate].
Qed.

Lemma includes_app_l s a b :
  Js.includes s (a ++ b) = true -> Js.includes s a = true.
Proof.
  rewrite !includes_iff. intros (k & Ho). exists k.
  apply occurs_at_iff in Ho. apply occurs_at_iff.
  destruct Ho as [Hk Hp]. split; auto. eapply prefix_app_l; eauto.
Qed.

(** [slice] between two positions of the string, in order. *)
Lemma slice_substring s a e :
  (a <= e)%nat -> (e <= String.length s)%nat ->
  Js.slice s (Z.of_nat a) (Z.of_nat e) = substring a (e - a) s.
Proof.
  intros Hae He. unfold Js.slice.
  destruct (Z.ltb_spec (Z.of_nat a) 0); [lia|].
  destruct (Z.ltb_spec (Z.of_nat e) 0); [lia|].
  f_equal; lia.
Qed.

(** [slice] up to position [0] is empty wherever it starts. *)
Lemma slice_to_zero s a : (0 <= a) -> Js.slice s a 0 = "".
Proof.
  intros Ha. unfold Js.slice.
  destruct (Z.ltb_spec a 0); [lia|].
  change (0 <? 0) with false. cbv iota.
  match goal with
  | |- substring _ ?n _ = _ => replace n with 0%nat by lia
  end.
  apply substring_zero_length.
Qed.

End StringFacts.

(** ** The registry as a map *)

Section RegistryFacts.

Lemma get_set_same key v obj : get key (set key v obj) = Some v.
Proof.
  induction obj as [|[k v'] rest IH]; simpl.
  - now rewrite String.eqb_refl.
  - destruct (String.eqb k key) eqn:E; simpl.
    + now rewrite String.eqb_refl.
    + now rewrite E.
Qed.

Lemma get_set_other key v obj key' :
  key <> key' -> get key' (set key v obj) = get key' obj.
Proof.
  intros Hne. induction obj as [|[k v'] rest IH]; simpl.
  - apply String.eqb_neq in Hne. now rewrite Hne.
  - destruct (String.eqb k key) eqn:E; simpl.
    + apply String.eqb_eq in E. subst k.
      apply String.eqb_neq in Hne. now rewrite Hne.
    + destruct (String.eqb k key'); auto.
Qed.

Lemma get_set key v obj key' :
  get key' (set key v obj) = if String.eqb key key' then Some v else get key' obj.
Proof.
  destruct (String.eqb key key') eqn:E.
  - apply String.eqb_eq in E. subst. apply get_set_same.
  - apply String.eqb_neq in E. now apply get_set_other.
Qed.

Lemma existsb_eqb_In key l :
  existsb (String.eqb key) l = true <-> In key l.
Proof.
  rewrite existsb_exists. split.
  - intros (x & Hin & E). apply String.eqb_eq in E. now subst.
  - intros Hin. exists key. split; auto. apply String.eqb_refl.
Qed.

(** Assignment keeps the place of a key that exists and appends a new one. *)
Lemma keys_set key v obj :
  keys (set key v obj) =
  if existsb (String.eqb key) (keys obj) then keys obj else (keys obj ++ [key])%list.
Proof.
  induction obj as [|[k v'] rest IH]; simpl; auto.
  rewrite (String.eqb_sym key k).
  destruct (String.eqb k key) eqn:E; simpl.
  - apply String.eqb_eq in E. now subst.
  - fold (keys rest). fold (keys (set key v rest)). rewrite IH.
    destruct (existsb (String.eqb key) (keys rest)); reflexivity.
Qed.

Lemma get_Some_keys key obj v : get key obj = Some v -> In key (keys obj).
Proof.
  induction obj as [|[k v'] rest IH]; simpl; [discriminate|].
  destruct (String.eqb k key) eqn:E.
  - apply String.eqb_eq in E. auto.
  - auto.
Qed.

Lemma keys_get_Some key obj : In key (keys obj) -> exists v, get key obj = Some v.
Proof.
  induction obj as [|[k v'] rest IH]; simpl; [tauto|].
  intros [-> | Hin].
  - rewrite String.eqb_refl. eauto.
  - destruct (String.eqb k key); eauto.
Qed.

(** [find] answers the first element that passes the test. *)
Lemma find_first {A} (f : A -> bool) l x :
  find f l = Some x ->
  exists earlier later,
    l = (earlier ++ x :: later)%list /\ f x = true /\
    forall y, In y earlier -> f y = false.
Proof.
  induction l as [|a l IH]; simpl; [discriminate|].
  destruct (f a) eqn:E.
  - intros [= ->]. exists [], l. repeat split; auto. intros y [].
  - intros H. destruct (IH H) as (earlier & later & -> & Hx & Hmin).
    exists (a :: earlier), later. repeat split; auto.
    intros y [-> | Hin]; auto.
Qed.

End RegistryFacts.

(** ** What the hook and the rule do to the module state *)

Section Effects.

Lemma recordToken_tokenColors d w :
  tokenColors (exec (colorMod.recordToken d) w) = recordInto d (tokenColors w).
Proof.
  unfold colorMod.recordToken, recordInto, admitted, when, exec.
  destruct (Js.startsWith (prop d) "--" && colorMod.isColor (value d)); reflexivity.
Qed.

Lemma rewriteValue_tokenColors d w :
  tokenColors (exec (colorMod.rewriteValue d) w) = tokenColors w.
Proof.
  unfold colorMod.rewriteValue, exec.
  destruct (Js.includes (value d) "#" || Js.includes (value d) "rgb("
            || Js.includes (value d) "rgba("); reflexivity.
Qed.

Lemma rewriteValue_reports d w :
  reports (exec (colorMod.rewriteValue d) w) = reports w.
Proof.
  unfold colorMod.rewriteValue, exec.
  destruct (Js.includes (value d) "#" || Js.includes (value d) "rgb("
            || Js.includes (value d) "rgba("); reflexivity.
Qed.

Lemma recordToken_reports d w :
  reports (exec (colorMod.recordToken d) w) = reports w.
Proof.
  unfold colorMod.recordToken, when, exec.
  destruct (Js.startsWith (prop d) "--" && colorMod.isColor (value d)); reflexivity.
Qed.

Lemma exec_bind {A B} (m : M A) (f : A -> M B) w :
  exec (bind m f) w = exec (f (eval m w)) (exec m w).
Proof.
  unfold exec, eval, bind. destruct (m w); reflexivity.
Qed.

Lemma Declaration_tokenColors d w :
  tokenColors (exec (colorMod.Declaration d) w) = recordInto d (tokenColors w).
Proof.
  unfold colorMod.Declaration. rewrite exec_bind.
  now rewrite rewriteValue_tokenColors, recordToken_tokenColors.
Qed.

Lemma Declaration_reports d w :
  reports (exec (colorMod.Declaration d) w) = reports w.
Proof.
  unfold colorMod.Declaration. rewrite exec_bind.
  now rewrite rewriteValue_reports, recordToken_reports.
Qed.

Lemma process_tokenColors css : forall w,
  tokenColors (exec (process css) w) =
  fold_left (fun obj d => recordInto d obj) css (tokenColors w).
Proof.
  induction css as [|d rest IH]; intros w; simpl; auto.
  now rewrite exec_bind, IH, Declaration_tokenColors.
Qed.

Lemma process_reports css : forall w,
  reports (exec (process css) w) = reports w.
Proof.
  induction css as [|d rest IH]; intros w; simpl; auto.
  now rewrite exec_bind, IH, Declaration_reports.
Qed.

Lemma create_tokenColors css w :
  tokenColors (exec (create css) w) =
  fold_left (fun obj d => recordInto d obj) css (tokenColors w).
Proof.
  unfold create. rewrite exec_bind. apply process_tokenColors.
Qed.

Lemma get_recordInto d obj key :
  get key (recordInto d obj) =
  if String.eqb (prop d) key && admitted d then Some (value d) else get key obj.
Proof.
  unfold recordInto. destruct (admitted d).
  - rewrite get_set. now rewrite andb_true_r.
  - now rewrite andb_false_r.
Qed.

(** Looking a name up after a build: the last admitted declaration of that
    name decides, and the earlier registry is seen only when there is none. *)
Lemma get_build p css : forall obj,
  get p (fold_left (fun obj d => recordInto d obj) css obj) =
  match lastAdmitted p css with
  | Some v => Some v
  | None => get p obj
  end.
Proof.
  induction css as [|d rest IH]; intros obj; simpl; auto.
  rewrite IH. destruct (lastAdmitted p rest); auto.
  rewrite get_recordInto. destruct (String.eqb (prop d) p && admitted d); reflexivity.
Qed.

End Effects.

(** ** The registry builder *)

Section Builder.

Lemma admitted_named p v :
  Js.startsWith p "--" = true -> admitted (mkDecl p v) = colorMod.isColor v.
Proof. intros H. unfold admitted. simpl. now rewrite H. Qed.

Lemma lastAdmitted_None p css :
  lastAdmitted p css = None ->
  forall d, In d css -> prop d = p -> admitted d = false.
Proof.
  induction css as [|a rest IH]; simpl; [tauto|].
  destruct (lastAdmitted p rest) eqn:E; [discriminate|].
  destruct (String.eqb (prop a) p && admitted a) eqn:T; [discriminate|].
  intros _ d [<- | Hin] Hp.
  - subst p. rewrite String.eqb_refl in T. exact T.
  - now apply IH.
Qed.

Lemma lastAdmitted_Some p css v' :
  lastAdmitted p css = Some v' ->
  exists before after,
    css = (before ++ mkDecl p v' :: after)%list /\
    admitted (mkDecl p v') = true /\
    forall d, In d after -> prop d = p -> admitted d = false.
Proof.
  induction css as [|a rest IH]; simpl; [discriminate|].
  destruct (lastAdmitted p rest) as [v1|] eqn:E.
  - intros [= ->]. destruct (IH eq_refl) as (before & after & -> & Hadm & Hlast).
    exists (a :: before), after. auto.
  - destruct (String.eqb (prop a) p && admitted a) eqn:T; [|discriminate].
    intros [= <-]. apply andb_prop in T. destruct T as [Hp Hadm].
    apply String.eqb_eq in Hp. exists [], rest.
    destruct a as [pa va]. simpl in *. subst pa. repeat split; auto.
    now apply lastAdmitted_None.
Qed.

Lemma lastAdmitted_defined p css d :
  In d css -> prop d = p -> admitted d = true ->
  exists v', lastAdmitted p css = Some v'.
Proof.
  intros Hin Hp Hadm. destruct (lastAdmitted p css) eqn:E; eauto.
  rewrite (lastAdmitted_None _ _ E d Hin Hp) in Hadm. discriminate.
Qed.

End Builder.

(** C6 -- frame.  A declaration whose name is not a custom-property name,
    or whose value carries no color marker, leaves the registry as it was;
    taking it out of the style sheet does not change the registry built. *)
Theorem skipped_declaration_frame d w :
  Js.startsWith (prop d) "--" = false \/ colorMod.isColor (value d) = false ->
  tokenColors (exec (colorMod.Declaration d) w) = tokenColors w /\
  forall before after,
    tokenColors (exec (create (before ++ d :: after)) w) =
    tokenColors (exec (create (before ++ after)) w).
Proof.
  intros H.
  assert (Hadm : forall obj, recordInto d obj = obj).
  { intros obj. unfold recordInto, admitted.
    destruct H as [-> | ->]; [reflexivity | now rewrite andb_false_r]. }
  split.
  - now rewrite Declaration_tokenColors.
  - intros before after. rewrite !create_tokenColors, !fold_left_app.
    simpl. now rewrite Hadm.
Qed.

Lemma skipped_declaration_frame_witness :
  (Js.startsWith "color" "--" = false \/ colorMod.isColor "#112233" = false) /\
  tokenColors
    (exec (create ([mkDecl "--brand" "#112233"] ++ mkDecl "color" "#112233" :: [])) initial)
  = [("--brand", "#112233")].
Proof.
  assert (H : Js.startsWith (prop (mkDecl "color" "#112233")) "--" = false
              \/ colorMod.isColor (value (mkDecl "color" "#112233")) = false)
    by (left; reflexivity).
  split; [exact H|].
  rewrite (proj2 (skipped_declaration_frame (mkDecl "color" "#112233") initial H)
             [mkDecl "--brand" "#112233"] []).
  reflexivity.
Defined.

(** Isolation fails: after a build for [sheetA] and one for [sheetB] the
    token of [sheetA] is still read, which a build for [sheetB] alone does
    not give. *)
Lemma second_build_shows_first_sheet :
  get "--a" (tokenColors (exec (create sheetA ;; create sheetB) initial)) = Some "#111" /\
  get "--a" (tokenColors (exec (create sheetB) initial)) = None /\
  tokenColors (exec (create sheetA ;; create sheetB) initial)
    <> tokenColors (exec (create sheetB) initial).
Proof.
  repeat split; try reflexivity. vm_compute. discriminate.
Qed.

(** C4, amended -- [tokenColors] is module state and [create] adds to it.
    After a build for style sheet A and then one for style sheet B, a name
    that B defines reads as in a registry built from B alone, and a name
    that B does not define still reads as A left it. *)
Theorem second_build_overlays_first A B w p :
  get p (tokenColors (exec (create A ;; create B) w)) =
  match get p (tokenColors (exec (create B) initial)) with
  | Some v => Some v
  | None => get p (tokenColors (exec (create A) w))
  end.
Proof.
  rewrite exec_bind, !create_tokenColors, !get_build. simpl.
  destruct (lastAdmitted p B); reflexivity.
Qed.

(** ** The literal matcher *)

Section Matcher.

Lemma getToken_exec token w : exec (getToken token) w = w.
Proof. reflexivity. Qed.

Lemma getToken_eval token w :
  eval (getToken token) w =
  find (fun key => strictEq (get key (tokenColors w)) token) (keys (tokenColors w)).
Proof. reflexivity. Qed.

Lemma strictEq_string a v :
  strictEq a (LitString v) = true <-> a = Some v.
Proof.
  destruct a as [s|]; simpl.
  - rewrite String.eqb_eq. split; congruence.
  - split; discriminate.
Qed.

Lemma find_all_false {A} (f : A -> bool) l :
  (forall x, In x l -> f x = false) -> find f l = None.
Proof.
  induction l as [|a l IH]; simpl; auto.
  intros H. rewrite (H a (or_introl eq_refl)). auto.
Qed.

Lemma getToken_sound w v n :
  eval (getToken (LitString v)) w = Some n -> get n (tokenColors w) = Some v.
Proof.
  rewrite getToken_eval. intros H. apply find_some in H.
  now apply strictEq_string.
Qed.

Lemma getToken_complete w v n0 :
  get n0 (tokenColors w) = Some v ->
  exists n, eval (getToken (LitString v)) w = Some n.
Proof.
  intros H. destruct (eval (getToken (LitString v)) w) as [n|] eqn:E; eauto.
  rewrite getToken_eval in E.
  pose proof (find_none _ _ E n0 (get_Some_keys _ _ _ H)) as Hn.
  cbv beta in Hn. rewrite H in Hn. cbn [strictEq] in Hn.
  rewrite String.eqb_refl in Hn. discriminate.
Qed.

Lemma getToken_no_match w token :
  (forall n v, get n (tokenColors w) = Some v -> token <> LitString v) ->
  eval (getToken token) w = None.
Proof.
  intros H. rewrite getToken_eval. apply find_all_false.
  intros key Hin. destruct (keys_get_Some _ _ Hin) as [v Hv]. rewrite Hv.
  destruct token as [s| |printed]; simpl; auto.
  apply String.eqb_neq. intros ->. exact (H key s Hv eq_refl).
Qed.

End Matcher.

(** C2 -- exact reverse lookup.  When some name of the registry maps to
    exactly [v], [getToken] answers a name that maps to [v]; when none does,
    it answers nothing; and whatever name it answers maps to [v] itself, the
    comparison being equality of strings with no normalization. *)
Theorem getToken_exact_match w v :
  ((exists n0, get n0 (tokenColors w) = Some v) ->
   exists n, eval (getToken (LitString v)) w = Some n /\
             get n (tokenColors w) = Some v) /\
  ((forall n0, get n0 (tokenColors w) <> Some v) ->
   eval (getToken (LitString v)) w = None) /\
  (forall n, eval (getToken (LitString v)) w = Some n ->
             get n (tokenColors w) = Some v).
Proof.
  split; [|split].
  - intros [n0 H0]. destruct (getToken_complete _ _ _ H0) as [n Hn].
    exists n. split; auto. now apply getToken_sound.
  - intros Hno. destruct (eval (getToken (LitString v)) w) as [n|] eqn:E; auto.
    exfalso. apply (Hno n). now apply getToken_sound.
  - intros n. apply getToken_sound.
Qed.

Lemma getToken_exact_match_witness :
  (exists n0, get n0 [("--a", "#111")] = Some "#111") /\
  (exists n, eval (getToken (LitString "#111")) (mkWorld [("--a", "#111")] [] []) = Some n /\
             get n [("--a", "#111")] = Some "#111") /\
  (forall n0, get n0 [("--a", "rgba(0,0,0,1)")] <> Some "rgba(0, 0, 0, 1)") /\
  eval (getToken (LitString "rgba(0, 0, 0, 1)"))
       (mkWorld [("--a", "rgba(0,0,0,1)")] [] []) = None.
Proof.
  assert (H1 : exists n0, get n0 [("--a", "#111")] = Some "#111")
    by (exists "--a"; reflexivity).
  assert (H2 : forall n0, get n0 [("--a", "rgba(0,0,0,1)")] <> Some "rgba(0, 0, 0, 1)").
  { intros n0. cbn [get]. destruct (String.eqb "--a" n0); discriminate. }
  split; [exact H1|]. split.
  - exact (proj1 (getToken_exact_match (mkWorld [("--a", "#111")] [] []) "#111") H1).
  - split; [exact H2|].
    exact (proj1 (proj2 (getToken_exact_match
                           (mkWorld [("--a", "rgba(0,0,0,1)")] [] [])
                           "rgba(0, 0, 0, 1)")) H2).
Defined.

Section InsertionOrder.

Lemma firstAdmissions_ext css : forall s1 s2,
  (forall x, In x s1 <-> In x s2) ->
  firstAdmissions s1 css = firstAdmissions s2 css.
Proof.
  induction css as [|d rest IH]; intros s1 s2 H; simpl; auto.
  assert (E : existsb (String.eqb (prop d)) s1 = existsb (String.eqb (prop d)) s2).
  { apply eq_true_iff_eq. rewrite !existsb_eqb_In. apply H. }
  rewrite E. destruct (admitted d && negb (existsb (String.eqb (prop d)) s2)).
  - f_equal. apply IH. intros x. simpl. rewrite H. tauto.
  - now apply IH.
Qed.

(** [Object.keys] after a build: the keys there were, then the new names
    in the order of their first admitted declaration. *)
Lemma keys_build css : forall obj,
  keys (fold_left (fun obj d => recordInto d obj) css obj) =
  (keys obj ++ firstAdmissions (keys obj) css)%list.
Proof.
  induction css as [|d rest IH]; intros obj; simpl.
  - now rewrite app_nil_r.
  - rewrite IH. unfold recordInto. destruct (admitted d); simpl; auto.
    rewrite keys_set.
    destruct (existsb (String.eqb (prop d)) (keys obj)); simpl; auto.
    rewrite <- app_assoc. simpl. do 2 f_equal.
    apply firstAdmissions_ext. intros x. rewrite in_app_iff. simpl. tauto.
Qed.

End InsertionOrder.

(** C7 -- tie-break.  The keys of a registry built from a style sheet are
    the names in the order of their first admitted declaration, and when
    some name maps to [v], [getToken] answers the first name in that order
    that maps to [v]: every name before it maps to something else. *)
Theorem getToken_first_inserted css v :
  let w := exec (create css) initial in
  keys (tokenColors w) = insertionOrder css /\
  ((exists n0, get n0 (tokenColors w) = Some v) ->
   exists n earlier later,
     eval (getToken (LitString v)) w = Some n /\
     get n (tokenColors w) = Some v /\
     insertionOrder css = (earlier ++ n :: later)%list /\
     forall k, In k earlier -> get k (tokenColors w) <> Some v).
Proof.
  intros w.
  assert (Hkeys : keys (tokenColors w) = insertionOrder css).
  { unfold w. rewrite create_tokenColors, keys_build. reflexivity. }
  split; [exact Hkeys|].
  intros [n0 H0]. destruct (getToken_complete _ _ _ H0) as [n Hn].
  pose proof Hn as Hfind. rewrite getToken_eval in Hfind.
  apply find_first in Hfind. destruct Hfind as (earlier & later & Hsplit & _ & Hmin).
  exists n, earlier, later. repeat split.
  - exact Hn.
  - now apply getToken_sound.
  - now rewrite <- Hkeys.
  - intros k Hk Hv. specialize (Hmin k Hk). cbv beta in Hmin.
    rewrite Hv in Hmin. cbn [strictEq] in Hmin.
    rewrite String.eqb_refl in Hmin. discriminate.
Qed.

Lemma getToken_first_inserted_witness :
  (exists n0, get n0 (tokenColors (exec (create tiedSheet) initial)) = Some "#111") /\
  exists n earlier later,
    eval (getToken (LitString "#111")) (exec (create tiedSheet) initial) = Some n /\
    get n (tokenColors (exec (create tiedSheet) initial)) = Some "#111" /\
    insertionOrder tiedSheet = (earlier ++ n :: later)%list /\
    forall k, In k earlier ->
              get k (tokenColors (exec (create tiedSheet) initial)) <> Some "#111".
Proof.
  assert (H : exists n0,
             get n0 (tokenColors (exec (create tiedSheet) initial)) = Some "#111")
    by (exists "--a"; reflexivity).
  split; [exact H|].
  exact (proj2 (getToken_first_inserted tiedSheet "#111") H).
Defined.

Example getToken_tie_goes_to_first_key :
  eval (getToken (LitString "#111")) (exec (create tiedSheet) initial) = Some "--b".
Proof. reflexivity. Qed.

(** ** The visitor *)

Section Visitor.

Lemma Property_tokenColors node w :
  tokenColors (exec (Property node) w) = tokenColors w.
Proof.
  unfold Property. destruct (key_name node) as [name|]; [|reflexivity].
  destruct (String.eqb name "color"); [|reflexivity].
  rewrite exec_bind, getToken_exec.
  destruct (truthy (eval (getToken (node_value node)) w)); reflexivity.
Qed.

Lemma traverse_tokenColors nodes : forall w,
  tokenColors (exec (traverse Property nodes) w) = tokenColors w.
Proof.
  induction nodes as [|n rest IH]; intros w; simpl; auto.
  now rewrite exec_bind, IH, Property_tokenColors.
Qed.

(** The reports of one visit, by cases on the key and on the lookup. *)
Lemma Property_reports node w :
  reports (exec (Property node) w) =
  match key_name node with
  | Some name =>
      if String.eqb name "color" && truthy (eval (getToken (node_value node)) w)
      then (reports w ++
            [mkReport node
               ("Use token '" ++ printToken (eval (getToken (node_value node)) w)
                  ++ "' instead of hard-coded color '"
                  ++ printLiteral (node_value node) ++ "'.")])%list
      else reports w
  | None => reports w
  end.
Proof.
  unfold Property. destruct (key_name node) as [name|]; [|reflexivity].
  destruct (String.eqb name "color"); [|reflexivity].
  rewrite exec_bind, getToken_exec. simpl andb.
  destruct (truthy (eval (getToken (node_value node)) w)); reflexivity.
Qed.

Lemma custom_key_truthy obj n :
  customKeys obj -> In n (keys obj) -> truthy (Some n) = true.
Proof.
  unfold customKeys. rewrite Forall_forall. intros H Hin.
  specialize (H n Hin). destruct n; [discriminate | reflexivity].
Qed.

Lemma recordInto_customKeys d obj : customKeys obj -> customKeys (recordInto d obj).
Proof.
  unfold recordInto. destruct (admitted d) eqn:E; auto.
  unfold customKeys. rewrite keys_set.
  destruct (existsb (String.eqb (prop d)) (keys obj)); auto.
  intros H. apply Forall_app. split; auto.
  constructor; auto. unfold admitted in E. now apply andb_prop in E.
Qed.

(** Every registry the rule can hold has custom-property names as keys. *)
Lemma create_customKeys css w :
  customKeys (tokenColors w) -> customKeys (tokenColors (exec (create css) w)).
Proof.
  rewrite create_tokenColors. generalize (tokenColors w).
  induction css as [|d rest IH]; intros obj H; simpl; auto.
  apply IH. now apply recordInto_customKeys.
Qed.

Lemma initial_customKeys : customKeys (tokenColors initial).
Proof. constructor. Qed.

End Visitor.

(** C8 -- diagnostics.  In a registry whose keys are custom-property names
    (every registry the builder leaves is one), a node keyed [color] whose
    value is a string equal to some registry value gets one report, for
    that node, naming the token [getToken] answers and the literal; a node
    keyed otherwise, or whose value equals no registry value, gets none. *)
Theorem Property_reports_token node w :
  customKeys (tokenColors w) ->
  (forall v,
     key_name node = Some "color" ->
     node_value node = LitString v ->
     (exists n0, get n0 (tokenColors w) = Some v) ->
     exists n,
       eval (getToken (LitString v)) w = Some n /\
       get n (tokenColors w) = Some v /\
       reports (exec (Property node) w) =
       (reports w ++
        [mkReport node
           ("Use token '" ++ n ++ "' instead of hard-coded color '" ++ v ++ "'.")])%list) /\
  ((key_name node <> Some "color" \/
    forall n v, get n (tokenColors w) = Some v -> node_value node <> LitString v) ->
   reports (exec (Property node) w) = reports w).
Proof.
  intros Hkeys. split.
  - intros v Hk Hv [n0 H0].
    destruct (getToken_complete _ _ _ H0) as [n Hn].
    pose proof (getToken_sound _ _ _ Hn) as Hget.
    exists n. repeat split; auto.
    rewrite Property_reports, Hk, Hv, Hn. simpl String.eqb.
    rewrite (custom_key_truthy _ _ Hkeys (get_Some_keys _ _ _ Hget)).
    reflexivity.
  - intros H. rewrite Property_reports.
    destruct (key_name node) as [name|] eqn:Hk; [|reflexivity].
    destruct H as [Hne | Hno].
    + destruct (String.eqb name "color") eqn:E; [|reflexivity].
      apply String.eqb_eq in E. congruence.
    + rewrite (getToken_no_match _ _ Hno). simpl. now rewrite andb_false_r.
Qed.

Lemma Property_reports_token_witness :
  customKeys (tokenColors (exec (create brandSheet) initial)) /\
  reports (exec (Property (mkNode (Some "color") (LitString "#112233")))
                (exec (create brandSheet) initial))
  = [mkReport (mkNode (Some "color") (LitString "#112233"))
       "Use token '--brand' instead of hard-coded color '#112233'."] /\
  reports (exec (Property (mkNode (Some "color") (LitString "#445566")))
                (exec (create brandSheet) initial))
  = [].
Proof.
  assert (Hk : customKeys (tokenColors (exec (create brandSheet) initial)))
    by (apply create_customKeys, initial_customKeys).
  split; [exact Hk|]. split.
  - destruct (proj1 (Property_reports_token
                       (mkNode (Some "color") (LitString "#112233"))
                       (exec (create brandSheet) initial) Hk)
                    "#112233" eq_refl eq_refl
                    (ex_intro _ "--brand" eq_refl)) as (n & Hn & _ & Hr).
    rewrite Hr. vm_compute in Hn. injection Hn as <-. reflexivity.
  - apply (proj2 (Property_reports_token
                    (mkNode (Some "color") (LitString "#445566"))
                    (exec (create brandSheet) initial) Hk)).
    right. intros n v.
    change (tokenColors (exec (create brandSheet) initial))
      with [("--brand", "#112233")].
    cbn [get node_value].
    destruct (String.eqb "--brand" n); intros [= <-]; discriminate.
Defined.

(** C9 -- the matcher is pure.  [getToken] leaves the module state as it
    found it, two calls in a row answer the same, and visiting any nodes, in
    any number and order, changes neither the registry nor what [getToken]
    answers afterwards. *)
Theorem getToken_pure token w :
  exec (getToken token) w = w /\
  eval (a <- getToken token ;; b <- getToken token ;; ret (a, b)) w
  = (eval (getToken token) w, eval (getToken token) w) /\
  forall visited,
    tokenColors (exec (traverse Property visited) w) = tokenColors w /\
    eval (getToken token) (exec (traverse Property visited) w)
    = eval (getToken token) w.
Proof.
  split; [reflexivity|]. split; [reflexivity|].
  intros visited. split.
  - apply traverse_tokenColors.
  - now rewrite !getToken_eval, traverse_tokenColors.
Qed.

(** ** Extraction of the color literal *)

Section Extraction.

Lemma substring_length_le k : forall n s,
  (String.length (substring k n s) <= String.length s - k)%nat.
Proof.
  induction k as [|k IH]; intros n s.
  - revert s. induction n as [|n IHn]; intros [|c s]; simpl; try lia.
    specialize (IHn s). lia.
  - destruct s as [|c s]; simpl; [lia | apply IH].
Qed.

Lemma occurs_at_fits sub s k :
  occurs_at sub s k -> (k + String.length sub <= String.length s)%nat.
Proof.
  intros [Hk Ho]. pose proof (substring_length_le k (String.length sub) s) as H.
  rewrite Ho in H. lia.
Qed.

(** The anchor is the first place where the context text occurs. *)
Lemma anchor_first value :
  colorMod.isColor value = true ->
  exists a,
    first_at (colorMod.context value) value 0 a /\
    colorMod.node value = Z.of_nat a.
Proof.
  unfold colorMod.isColor, colorMod.context, colorMod.node. intros H.
  destruct (Js.includes value "#") eqn:Hh.
  - apply includes_first in Hh. exact Hh.
  - simpl in H. apply orb_prop in H.
    assert (Hrgb : Js.includes value "rgb" = true).
    { destruct H as [H | H].
      - exact (includes_app_l value "rgb" "(" H).
      - exact (includes_app_l value "rgb" "a(" H). }
    apply includes_first in Hrgb. exact Hrgb.
Qed.

End Extraction.

(** Where [rgb] occurs before the color the anchor is not where [rgb(] is,
    and the span is not the color. *)
Lemma anchor_not_at_rgb_paren :
  colorMod.isColor shadowedRgb = true /\
  Js.includes shadowedRgb "#" = false /\
  Js.indexOf shadowedRgb "rgb(" 0 = 16 /\
  colorMod.node shadowedRgb = 6 /\
  colorMod.node shadowedRgb <> Js.indexOf shadowedRgb "rgb(" 0 /\
  colorMod.hexOrRgba shadowedRgb = "rgb-base, rgb(0,0,0)" /\
  colorMod.hexOrRgba shadowedRgb
    <> Js.slice shadowedRgb (Js.indexOf shadowedRgb "rgb(" 0)
                (Js.indexOf shadowedRgb ")" (Js.indexOf shadowedRgb "rgb(" 0) + 1).
Proof.
  repeat split; try reflexivity; vm_compute; discriminate.
Qed.

(** C3, amended -- the span.  For a value with a color marker the anchor is
    the first position of [#] when the value has one, and otherwise the first
    position of [rgb] (the start of [rgb(] and of [rgba(] alike); when [)]
    occurs at or after the anchor, the end index is one past the first such
    occurrence and the span is the text from the anchor up to it, the
    closing parenthesis included. *)
Theorem extraction_anchor_end_span value :
  colorMod.isColor value = true ->
  exists a,
    first_at (if Js.includes value "#" then "#" else "rgb") value 0 a /\
    colorMod.node value = Z.of_nat a /\
    forall e,
      first_at ")" value a e ->
      colorMod.end_ value = Z.of_nat e + 1 /\
      colorMod.hexOrRgba value = substring a (e + 1 - a) value.
Proof.
  intros H. destruct (anchor_first value H) as (a & Ha & Hnode).
  exists a. split; [exact Ha|]. split; [exact Hnode|].
  intros e He.
  assert (Hlen : (a <= String.length value)%nat) by apply Ha.
  assert (Hend : colorMod.end_ value = Z.of_nat e + 1).
  { unfold colorMod.end_. rewrite Hnode.
    now rewrite (indexOf_first_at value ")" a e Hlen He). }
  split; [exact Hend|].
  unfold colorMod.hexOrRgba. rewrite Hend, Hnode.
  destruct He as (Hae & Ho & _). apply occurs_at_fits in Ho. simpl in Ho.
  replace (Z.of_nat e + 1) with (Z.of_nat (e + 1)) by lia.
  apply slice_substring; lia.
Qed.

Lemma extraction_anchor_end_span_witness :
  colorMod.isColor "1px solid rgba(0,0,0,0.5)" = true /\
  exists a,
    first_at (if Js.includes "1px solid rgba(0,0,0,0.5)" "#" then "#" else "rgb")
             "1px solid rgba(0,0,0,0.5)" 0 a /\
    colorMod.node "1px solid rgba(0,0,0,0.5)" = Z.of_nat a /\
    forall e,
      first_at ")" "1px solid rgba(0,0,0,0.5)" a e ->
      colorMod.end_ "1px solid rgba(0,0,0,0.5)" = Z.of_nat e + 1 /\
      colorMod.hexOrRgba "1px solid rgba(0,0,0,0.5)"
      = substring a (e + 1 - a) "1px solid rgba(0,0,0,0.5)".
Proof.
  split; [reflexivity|].
  exact (extraction_anchor_end_span "1px solid rgba(0,0,0,0.5)" eq_refl).
Defined.

Example extraction_rgba_span :
  colorMod.node "1px solid rgba(0,0,0,0.5)" = 10 /\
  colorMod.end_ "1px solid rgba(0,0,0,0.5)" = 25 /\
  colorMod.hexOrRgba "1px solid rgba(0,0,0,0.5)" = "rgba(0,0,0,0.5)" /\
  Js.indexOf "1px solid rgba(0,0,0,0.5)" "rgb(" 0 = -1.
Proof. repeat split. Qed.

(** A hex color has no closing parenthesis, and is a token all the same:
    the declaration is not skipped, and the rewrite goes ahead on an empty
    span. *)
Lemma unclosed_declaration_enters_registry :
  colorMod.isColor (value unclosedHex) = true /\
  (forall k, ~ occurs_at ")" (value unclosedHex) k) /\
  get "--a" (tokenColors (exec (colorMod.Declaration unclosedHex) initial))
    = Some "#111" /\
  value (eval (colorMod.Declaration unclosedHex) initial) = "color()111".
Proof.
  split; [reflexivity|]. split; [|split; reflexivity].
  intros k [Hk Ho]. simpl in Hk.
  do 5 (destruct k as [|k]; [discriminate Ho|]). lia.
Qed.

(** C5, amended -- a value with no closing parenthesis.  When the value
    has a color marker and no [)] at or after the anchor, the end index is
    [0] and the span is the empty string; the declaration is admitted like
    any other, entering the registry with its value as written exactly when
    its name begins with [--]; and the hook reports nothing. *)
Theorem unclosed_color_declaration d w :
  colorMod.isColor (value d) = true ->
  (forall k, (Z.to_nat (colorMod.node (value d)) <= k)%nat ->
             ~ occurs_at ")" (value d) k) ->
  colorMod.end_ (value d) = 0 /\
  colorMod.hexOrRgba (value d) = "" /\
  tokenColors (exec (colorMod.Declaration d) w) =
    (if Js.startsWith (prop d) "--"
     then set (prop d) (value d) (tokenColors w)
     else tokenColors w) /\
  reports (exec (colorMod.Declaration d) w) = reports w.
Proof.
  intros Hc Hno. destruct (anchor_first _ Hc) as (a & Ha & Hnode).
  rewrite Hnode, Nat2Z.id in Hno.
  assert (Hlen : (a <= String.length (value d))%nat) by apply Ha.
  assert (Hend : colorMod.end_ (value d) = 0).
  { unfold colorMod.end_. rewrite Hnode.
    now rewrite (indexOf_absent _ ")" a Hlen Hno). }
  split; [exact Hend|]. split; [|split].
  - unfold colorMod.hexOrRgba. rewrite Hend, Hnode. apply slice_to_zero. lia.
  - rewrite Declaration_tokenColors. unfold recordInto, admitted. rewrite Hc.
    now rewrite andb_true_r.
  - apply Declaration_reports.
Qed.

Lemma unclosed_color_declaration_witness :
  colorMod.isColor (value unclosedHex) = true /\
  (forall k, (Z.to_nat (colorMod.node (value unclosedHex)) <= k)%nat ->
             ~ occurs_at ")" (value unclosedHex) k) /\
  colorMod.end_ (value unclosedHex) = 0 /\
  colorMod.hexOrRgba (value unclosedHex) = "" /\
  tokenColors (exec (colorMod.Declaration unclosedHex) initial) =
    (if Js.startsWith (prop unclosedHex) "--"
     then set (prop unclosedHex) (value unclosedHex) (tokenColors initial)
     else tokenColors initial) /\
  reports (exec (colorMod.Declaration unclosedHex) initial) = reports initial.
Proof.
  assert (Hno : forall k, (Z.to_nat (colorMod.node (value unclosedHex)) <= k)%nat ->
                          ~ occurs_at ")" (value unclosedHex) k).
  { intros k _ [Hk Ho]. simpl in Hk.
    do 5 (destruct k as [|k]; [discriminate Ho|]). lia. }
  split; [reflexivity|]. split; [exact Hno|].
  exact (unclosed_color_declaration unclosedHex initial eq_refl Hno).
Defined.

(** Within one call of the hook the value recorded is the value the
    declaration came with, and the rewrite that follows leaves the registry
    as the recording step left it. *)
Lemma hook_records_before_rewrite d w :
  let w1 := exec (colorMod.recordToken d) w in
  let w2 := exec (colorMod.Declaration d) w in
  (Js.startsWith (prop d) "--" = true ->
   colorMod.isColor (value d) = true ->
   get (prop d) (tokenColors w2) = Some (value d)) /\
  tokenColors w2 = tokenColors w1 /\
  (forall k v, get k (tokenColors w1) = Some v -> get k (tokenColors w2) = Some v) /\
  (forall w0, tokenColors (exec (colorMod.rewriteValue d) w0) = tokenColors w0).
Proof.
  intros w1 w2.
  assert (E : tokenColors w2 = tokenColors w1).
  { unfold w2, w1. now rewrite Declaration_tokenColors, recordToken_tokenColors. }
  split; [|split; [exact E|split]].
  - intros Hp Hc. unfold w2. rewrite Declaration_tokenColors.
    unfold recordInto, admitted. rewrite Hp, Hc. apply get_set_same.
  - intros k v. now rewrite E.
  - intros w0. apply rewriteValue_tokenColors.
Qed.


(** ** The rewriting half of the hook *)

Section Rewrite.

Lemma append_empty_r s : s ++ "" = s.
Proof. induction s as [|c s IH]; simpl; congruence. Qed.

Lemma scan_first sub s k : first_at sub s 0 k -> Js.scan sub s 0 = Some k.
Proof.
  intros Hf. pose proof (indexOf_scan s sub 0 (Nat.le_0_l _)) as H.
  rewrite drop_0 in H. destruct (Js.scan sub s 0) as [k'|].
  - f_equal. eapply first_at_unique; [apply H | exact Hf].
  - destruct Hf as (_ & Ho & _). exfalso. exact (proj1 H k (Nat.le_0_l _) Ho).
Qed.

Lemma first_at_exists sub s a e :
  (a <= e)%nat -> occurs_at sub s e -> exists e0, first_at sub s a e0.
Proof.
  intros Hae Ho.
  assert (Ha : (a <= String.length s)%nat) by (destruct Ho; lia).
  pose proof (indexOf_scan s sub a Ha) as H.
  destruct (Js.scan sub (Js.drop a s) a) as [k|].
  - exists k. apply H.
  - exfalso. exact (proj1 H e Hae Ho).
Qed.

(** The span with no closing parenthesis to end it. *)
Lemma unclosed_span value a :
  colorMod.node value = Z.of_nat a ->
  (a <= String.length value)%nat ->
  (forall k, (a <= k)%nat -> ~ occurs_at ")" value k) ->
  colorMod.hexOrRgba value = "".
Proof.
  intros Hnode Hlen Hno. unfold colorMod.hexOrRgba, colorMod.end_.
  rewrite Hnode, (indexOf_absent _ ")" a Hlen Hno). apply slice_to_zero. lia.
Qed.

(** The span that a closing parenthesis ends. *)
Lemma closed_span value a e :
  colorMod.node value = Z.of_nat a ->
  first_at ")" value a e ->
  colorMod.hexOrRgba value = substring a (e + 1 - a) value.
Proof.
  intros Hnode He.
  assert (Hlen : (a <= String.length value)%nat)
    by (destruct He as (? & [? _] & _); lia).
  unfold colorMod.hexOrRgba, colorMod.end_.
  rewrite Hnode, (indexOf_first_at value ")" a e Hlen He).
  destruct He as (Hae & Ho & _). apply occurs_at_fits in Ho. simpl in Ho.
  replace (Z.of_nat e + 1) with (Z.of_nat (e + 1)) by lia.
  apply slice_substring; lia.
Qed.

(** What the hook returns does not depend on the module state. *)
Lemma Declaration_eval d w :
  eval (colorMod.Declaration d) w =
  if colorMod.isColor (value d)
  then mkDecl (prop d)
         (Js.replace (value d)
            (colorMod.context (value d) ++ colorMod.hexOrRgba (value d))
            (colorMod.mod_ (value d)))
  else d.
Proof.
  unfold colorMod.Declaration, colorMod.recordToken, colorMod.rewriteValue,
    colorMod.isColor, when, eval, bind.
  destruct (Js.startsWith (prop d) "--" &&
            (Js.includes (value d) "#" || Js.includes (value d) "rgb("
             || Js.includes (value d) "rgba("));
    destruct (Js.includes (value d) "#" || Js.includes (value d) "rgb("
              || Js.includes (value d) "rgba("); reflexivity.
Qed.

Lemma Declaration_console d w :
  console (exec (colorMod.Declaration d) w) =
  (console w ++ if colorMod.isColor (value d) then [logLineOf d] else [])%list.
Proof.
  unfold colorMod.Declaration, colorMod.recordToken, colorMod.rewriteValue,
    colorMod.isColor, logLineOf, when, exec, bind.
  destruct (Js.startsWith (prop d) "--" &&
            (Js.includes (value d) "#" || Js.includes (value d) "rgb("
             || Js.includes (value d) "rgba("));
    destruct (Js.includes (value d) "#" || Js.includes (value d) "rgb("
              || Js.includes (value d) "rgba("); simpl;
    try reflexivity; now rewrite app_nil_r.
Qed.

(** A string that starts with [x ++ y] goes on with [y] after [x]. *)
Lemma prefix_app_r x : forall y s,
  prefix (x ++ y) s = true -> prefix y (Js.drop (String.length x) s) = true.
Proof.
  induction x as [|c x IH]; intros y s H; simpl in *.
  - exact H.
  - destruct s as [|c' s]; simpl in *; [discriminate|].
    destruct (ascii_dec c c'); [auto | discriminate].
Qed.

Lemma prefix_trans x : forall y s,
  prefix x y = true -> prefix y s = true -> prefix x s = true.
Proof.
  induction x as [|c x IH]; intros y s Hxy Hys.
  - destruct s; reflexivity.
  - destruct y as [|cy y]; simpl in Hxy; [discriminate|].
    destruct (ascii_dec c cy) as [->|]; [|discriminate].
    destruct s as [|cs s]; simpl in Hys; [discriminate|].
    destruct (ascii_dec cy cs) as [->|]; [|discriminate].
    simpl. destruct (ascii_dec cs cs); [eauto | congruence].
Qed.

Lemma prefix_substring x : forall n s,
  prefix x s = true -> (String.length x <= n)%nat ->
  prefix x (substring 0 n s) = true.
Proof.
  induction x as [|c x IH]; intros n s H Hn.
  - destruct (substring 0 n s); reflexivity.
  - destruct s as [|cs s]; simpl in H; [discriminate|].
    destruct (ascii_dec c cs) as [->|]; [|discriminate].
    destruct n as [|n]; simpl in Hn; [lia|].
    simpl. destruct (ascii_dec cs cs); [|congruence].
    apply IH; auto. lia.
Qed.

(** The closing parenthesis that ends the span comes after the anchor text. *)
Lemma close_after_context value a e :
  occurs_at (colorMod.context value) value a ->
  occurs_at ")" value e -> (a <= e)%nat ->
  (a + String.length (colorMod.context value) <= e + 1)%nat.
Proof.
  intros Hc He Hae. apply occurs_at_iff in Hc. apply occurs_at_iff in He.
  destruct Hc as [_ Hc]. destruct He as [_ He].
  replace e with (a + (e - a))%nat in He by lia. rewrite <- drop_drop in He.
  unfold colorMod.context in *. destruct (Js.includes value "#").
  - simpl. lia.
  - simpl String.length.
    remember (Js.drop a value) as t eqn:Et. clear Et.
    destruct t as [|c1 t1]; cbn [prefix] in Hc; [discriminate|].
    destruct (ascii_dec "r" c1) as [<-|]; [|discriminate].
    destruct (e - a)%nat as [|m] eqn:Em.
    { cbn [Js.drop prefix] in He.
      destruct (ascii_dec ")" "r") as [E|]; discriminate. }
    destruct t1 as [|c2 t2]; cbn [prefix] in Hc; [discriminate|].
    destruct (ascii_dec "g" c2) as [<-|]; [|discriminate].
    destruct m as [|m]; [|lia].
    cbn [Js.drop prefix] in He.
    destruct (ascii_dec ")" "g") as [E|]; discriminate.
Qed.

End Rewrite.

(** X1 -- declarations the hook passes through.  The hook never changes
    the property name, and a declaration whose value has no color marker
    comes back as it was, with the module state as it was: nothing
    recorded, nothing logged. *)
Theorem Declaration_passthrough d w :
  prop (eval (colorMod.Declaration d) w) = prop d /\
  (colorMod.isColor (value d) = false -> colorMod.Declaration d w = (d, w)).
Proof.
  split.
  - rewrite Declaration_eval. destruct (colorMod.isColor (value d)); reflexivity.
  - intros H.
    unfold colorMod.Declaration, colorMod.recordToken, colorMod.rewriteValue,
      when, bind.
    rewrite H, andb_false_r. unfold colorMod.isColor in H. rewrite H.
    reflexivity.
Qed.

Lemma Declaration_passthrough_witness :
  colorMod.isColor (value (mkDecl "--gap" "4px")) = false /\
  colorMod.Declaration (mkDecl "--gap" "4px") initial = (mkDecl "--gap" "4px", initial).
Proof.
  split; [reflexivity|].
  exact (proj2 (Declaration_passthrough (mkDecl "--gap" "4px") initial) eq_refl).
Defined.

(** X2 -- what the rewrite does to a value with no closing parenthesis.
    When the value has a color marker and no [)] at or after the anchor,
    the hook returns the value with the anchor text ([#] or [rgb]) replaced
    by [color()]: what follows the anchor text stays outside the
    parentheses. *)
Theorem unclosed_value_rewritten d w a :
  colorMod.isColor (value d) = true ->
  colorMod.node (value d) = Z.of_nat a ->
  (forall k, (a <= k)%nat -> ~ occurs_at ")" (value d) k) ->
  value (eval (colorMod.Declaration d) w) =
  substring 0 a (value d) ++ "color()"
    ++ Js.drop (a + String.length (colorMod.context (value d))) (value d).
Proof.
  intros Hc Hnode Hno. destruct (anchor_first _ Hc) as (a' & Ha & Hnode').
  assert (a' = a) by lia. subst a'.
  assert (Hlen : (a <= String.length (value d))%nat) by apply Ha.
  rewrite Declaration_eval, Hc. simpl value at 1.
  unfold colorMod.mod_. rewrite (unclosed_span _ a Hnode Hlen Hno).
  rewrite append_empty_r. unfold Js.replace. rewrite (scan_first _ _ _ Ha).
  reflexivity.
Qed.

Lemma unclosed_value_rewritten_witness :
  colorMod.isColor (value (mkDecl "--line" "1px solid #abc")) = true /\
  colorMod.node (value (mkDecl "--line" "1px solid #abc")) = Z.of_nat 10 /\
  (forall k, (10 <= k)%nat ->
             ~ occurs_at ")" (value (mkDecl "--line" "1px solid #abc")) k) /\
  value (eval (colorMod.Declaration (mkDecl "--line" "1px solid #abc")) initial)
  = "1px solid color()abc".
Proof.
  assert (Hno : forall k, (10 <= k)%nat ->
                  ~ occurs_at ")" (value (mkDecl "--line" "1px solid #abc")) k).
  { intros k Hk [Hlen Ho]. simpl in Hlen.
    do 10 (destruct k as [|k]; [lia|]).
    do 5 (destruct k as [|k]; [discriminate Ho|]). lia. }
  split; [reflexivity|]. split; [reflexivity|]. split; [exact Hno|].
  exact (unclosed_value_rewritten (mkDecl "--line" "1px solid #abc") initial 10
           eq_refl eq_refl Hno).
Defined.

(** X3 -- the rewrite leaves an ordinary color alone.  When the anchor
    text ([#] or [rgb]) occurs only once in the value and a [)] follows it,
    the text the hook looks for does not occur in the value, and the hook
    returns the declaration unchanged. *)
Theorem closed_single_marker_unchanged d w a :
  colorMod.isColor (value d) = true ->
  (forall j, occurs_at (colorMod.context (value d)) (value d) j -> j = a) ->
  (exists e, (a <= e)%nat /\ occurs_at ")" (value d) e) ->
  eval (colorMod.Declaration d) w = d.
Proof.
  intros Hc Huniq (e & Hae & He).
  destruct (anchor_first _ Hc) as (a' & Ha & Hnode).
  assert (a' = a) by (apply Huniq, Ha). subst a'.
  destruct (first_at_exists _ _ _ _ Hae He) as (e0 & He0).
  pose proof (closed_span _ _ _ Hnode He0) as Hspan.
  assert (Hctx : occurs_at (colorMod.context (value d)) (value d) a) by apply Ha.
  assert (Hfit : (a + String.length (colorMod.context (value d)) <= e0 + 1)%nat).
  { destruct He0 as (Hle & Ho & _). now apply close_after_context. }
  assert (Hpre : prefix (colorMod.context (value d)) (colorMod.hexOrRgba (value d)) = true).
  { rewrite Hspan, substring_drop. apply prefix_substring; [|lia].
    apply occurs_at_iff in Hctx. apply Hctx. }
  rewrite Declaration_eval, Hc. destruct d as [p v]. simpl in *. f_equal.
  unfold Js.replace.
  destruct (Js.scan (colorMod.context v ++ colorMod.hexOrRgba v) v 0) as [k|] eqn:E;
    [|reflexivity].
  exfalso. apply scan_Some in E. destruct E as (j & -> & Hj & Hp & _). simpl in *.
  assert (Hk : j = a).
  { apply Huniq. apply occurs_at_iff. split; auto. eapply prefix_app_l; eauto. }
  subst j. apply prefix_app_r in Hp. rewrite drop_drop in Hp.
  pose proof (prefix_trans _ _ _ Hpre Hp) as Hagain.
  assert (Hocc : occurs_at (colorMod.context v) v (a + String.length (colorMod.context v))).
  { apply occurs_at_iff. split; auto. apply occurs_at_fits in Hctx. exact Hctx. }
  apply Huniq in Hocc.
  unfold colorMod.context in Hocc. destruct (Js.includes v "#"); simpl in Hocc; lia.
Qed.

Lemma closed_single_marker_unchanged_witness :
  colorMod.isColor (value (mkDecl "--ink" "rgb(0,0,0)")) = true /\
  (forall j, occurs_at (colorMod.context (value (mkDecl "--ink" "rgb(0,0,0)")))
                       (value (mkDecl "--ink" "rgb(0,0,0)")) j -> j = 0%nat) /\
  (exists e, (0 <= e)%nat /\ occurs_at ")" (value (mkDecl "--ink" "rgb(0,0,0)")) e) /\
  eval (colorMod.Declaration (mkDecl "--ink" "rgb(0,0,0)")) initial
  = mkDecl "--ink" "rgb(0,0,0)".
Proof.
  assert (Hu : forall j,
             occurs_at (colorMod.context (value (mkDecl "--ink" "rgb(0,0,0)")))
                       (value (mkDecl "--ink" "rgb(0,0,0)")) j -> j = 0%nat).
  { intros j [Hlen Ho]. simpl in Hlen.
    destruct j as [|j]; [reflexivity|]. exfalso.
    do 10 (destruct j as [|j]; [discriminate Ho|]). lia. }
  assert (He : exists e, (0 <= e)%nat /\
                         occurs_at ")" (value (mkDecl "--ink" "rgb(0,0,0)")) e).
  { exists 9%nat. split; [lia|]. split; [simpl; lia | reflexivity]. }
  split; [reflexivity|]. split; [exact Hu|]. split; [exact He|].
  exact (closed_single_marker_unchanged (mkDecl "--ink" "rgb(0,0,0)") initial 0
           eq_refl Hu He).
Defined.

(** The console after the hook was called on [css]: one line for each call
    on a value with a color marker, in the order of the calls. *)
Lemma calls_console css : forall w,
  console (exec (process css) w) =
  (console w
   ++ map logLineOf (filter (fun d => colorMod.isColor (value d)) css))%list.
Proof.
  induction css as [|d rest IH]; intros w; simpl.
  - now rewrite app_nil_r.
  - rewrite exec_bind, IH, Declaration_console.
    destruct (colorMod.isColor (value d)); simpl.
    + now rewrite <- app_assoc.
    + now rewrite app_nil_r.
Qed.

(** ** Builds over a registry that is already there *)

Section Rebuild.

Lemma lastAdmitted_absent p css :
  (forall d, In d css -> prop d = p -> admitted d = false) ->
  lastAdmitted p css = None.
Proof.
  intros H. destruct (lastAdmitted p css) as [v|] eqn:E; auto.
  destruct (lastAdmitted_Some _ _ _ E) as (before & after & -> & Hadm & _).
  rewrite (H (mkDecl p v)) in Hadm; [discriminate | | reflexivity].
  apply in_or_app. right. left. reflexivity.
Qed.

Lemma lastAdmitted_at p v before : forall after,
  admitted (mkDecl p v) = true ->
  (forall d, In d after -> prop d = p -> admitted d = false) ->
  lastAdmitted p (before ++ mkDecl p v :: after) = Some v.
Proof.
  intros after Hadm Hlast. induction before as [|b before IH]; simpl.
  - rewrite (lastAdmitted_absent _ _ Hlast), String.eqb_refl.
    change (admitted (mkDecl p v)) with (admitted {| prop := p; value := v |}).
    now rewrite Hadm.
  - simpl in IH. now rewrite IH.
Qed.

Lemma firstAdmissions_seen css : forall seen,
  (forall d, In d css -> admitted d = true -> In (prop d) seen) ->
  firstAdmissions seen css = [].
Proof.
  induction css as [|d rest IH]; intros seen H; simpl; auto.
  destruct (admitted d) eqn:E; simpl.
  - assert (Hin : In (prop d) seen) by (apply H; simpl; auto).
    apply existsb_eqb_In in Hin. rewrite Hin. simpl.
    apply IH. intros d' Hd'. apply H. now right.
  - apply IH. intros d' Hd'. apply H. now right.
Qed.

Lemma build_keys_cover css obj d :
  In d css -> admitted d = true ->
  In (prop d) (keys (fold_left (fun obj d => recordInto d obj) css obj)).
Proof.
  intros Hin Hadm.
  destruct (lastAdmitted_defined (prop d) css d Hin eq_refl Hadm) as [v Hv].
  apply (get_Some_keys _ _ v). now rewrite get_build, Hv.
Qed.

Lemma firstAdmissions_fresh css : forall seen p,
  In p (firstAdmissions seen css) -> ~ In p seen.
Proof.
  induction css as [|d rest IH]; intros seen p; simpl; [tauto|].
  destruct (admitted d && negb (existsb (String.eqb (prop d)) seen)) eqn:E.
  - apply andb_prop in E. destruct E as [_ E]. apply negb_true_iff in E.
    intros [<- | Hin] Hseen.
    + apply existsb_eqb_In in Hseen. congruence.
    + apply (IH _ _ Hin). now right.
  - apply IH.
Qed.

Lemma firstAdmissions_NoDup css : forall seen, NoDup (firstAdmissions seen css).
Proof.
  induction css as [|d rest IH]; intros seen; simpl; [constructor|].
  destruct (admitted d && negb (existsb (String.eqb (prop d)) seen)); auto.
  constructor; auto. intros Hin. apply firstAdmissions_fresh in Hin.
  apply Hin. now left.
Qed.

Lemma create_reports css w : reports (exec (create css) w) = reports w.
Proof. unfold create. rewrite exec_bind. apply process_reports. Qed.

Lemma create_eval css w : eval (create css) w = Property.
Proof. unfold create, eval, bind. destruct (process css w). reflexivity. Qed.

End Rebuild.

(** X5 -- building again from the same style sheet.  A second [create]
    over the same declarations leaves the registry as the first left it: the
    same keys in the same order, and the same value under every name. *)
Theorem create_idempotent css w :
  keys (tokenColors (exec (create css ;; create css) w))
  = keys (tokenColors (exec (create css) w)) /\
  forall p,
    get p (tokenColors (exec (create css ;; create css) w))
    = get p (tokenColors (exec (create css) w)).
Proof.
  rewrite exec_bind. rewrite !create_tokenColors. split.
  - rewrite keys_build. rewrite firstAdmissions_seen; [apply app_nil_r|].
    intros d Hin Hadm. now apply build_keys_cover.
  - intros p. rewrite !get_build. destruct (lastAdmitted p css); reflexivity.
Qed.

(** X6 -- [create] only adds.  The keys the registry had stay where they
    were, the new ones coming after them, each once and none of them a key
    that was there; and a name for which the style sheet has no admitted
    declaration reads as before. *)
Theorem create_extends css w :
  (exists added,
     keys (tokenColors (exec (create css) w)) = (keys (tokenColors w) ++ added)%list /\
     NoDup added /\
     forall p, In p added -> ~ In p (keys (tokenColors w))) /\
  forall p,
    (forall d, In d css -> prop d = p ->
               Js.startsWith (prop d) "--" && colorMod.isColor (value d) = false) ->
    get p (tokenColors (exec (create css) w)) = get p (tokenColors w).
Proof.
  rewrite create_tokenColors. split.
  - exists (firstAdmissions (keys (tokenColors w)) css). split; [apply keys_build|].
    split; [apply firstAdmissions_NoDup | apply firstAdmissions_fresh].
  - intros p H. rewrite get_build, lastAdmitted_absent; auto.
Qed.

Lemma create_extends_witness :
  (forall d, In d sheetB -> prop d = "--a" ->
             Js.startsWith (prop d) "--" && colorMod.isColor (value d) = false) /\
  get "--a" (tokenColors (exec (create sheetB) (exec (create sheetA) initial)))
  = get "--a" (tokenColors (exec (create sheetA) initial)).
Proof.
  assert (H : forall d, In d sheetB -> prop d = "--a" ->
                Js.startsWith (prop d) "--" && colorMod.isColor (value d) = false).
  { intros d [<- | []] Hp. discriminate Hp. }
  split; [exact H|].
  exact (proj2 (create_extends sheetB (exec (create sheetA) initial)) "--a" H).
Defined.

(** X7 -- the registry stays a map of color tokens.  If no key occurs
    twice, every key begins with [--] and every value has a color marker,
    the same holds after [create], whatever the style sheet. *)
Theorem create_wellFormed css w :
  wellFormed (tokenColors w) -> wellFormed (tokenColors (exec (create css) w)).
Proof.
  rewrite create_tokenColors. generalize (tokenColors w).
  induction css as [|d rest IH]; intros obj H; simpl; auto.
  apply IH. destruct H as [Hnd Hval]. split.
  - unfold recordInto. destruct (admitted d); auto. rewrite keys_set.
    destruct (existsb (String.eqb (prop d)) (keys obj)) eqn:E; auto.
    apply NoDup_app; auto.
    + constructor; [intros [] | constructor].
    + intros a Ha [<- | []]. apply existsb_eqb_In in Ha. congruence.
  - intros p v. rewrite get_recordInto.
    destruct (String.eqb (prop d) p && admitted d) eqn:E; [|apply Hval].
    intros [= <-]. apply andb_prop in E. destruct E as [Hp Hadm].
    apply String.eqb_eq in Hp. subst p. unfold admitted in Hadm.
    now apply andb_prop in Hadm.
Qed.

Lemma create_wellFormed_witness :
  wellFormed (tokenColors initial) /\
  wellFormed (tokenColors (exec (create brandSheet) initial)).
Proof.
  assert (H : wellFormed (tokenColors initial)).
  { split; [constructor | intros p v; discriminate]. }
  split; [exact H|]. exact (create_wellFormed brandSheet initial H).
Defined.

(** X8 -- a name the style sheet does not define.  In a registry built on
    fresh module state a name is missing exactly when every declaration of
    that name in the style sheet fails the guard, for want of the [--]
    prefix or of a color marker. *)
Theorem fresh_registry_missing css p :
  get p (tokenColors (exec (create css) initial)) = None <->
  forall d, In d css -> prop d = p ->
            Js.startsWith (prop d) "--" && colorMod.isColor (value d) = false.
Proof.
  rewrite create_tokenColors, get_build. simpl. split.
  - intros H. destruct (lastAdmitted p css) eqn:E; [discriminate|].
    now apply lastAdmitted_None.
  - intros H. now rewrite lastAdmitted_absent.
Qed.

(** ** Traversals *)

Section Traversal.

Lemma Property_reports_frame node w :
  reports (exec (Property node) w) =
  (reports w ++ reports (exec (Property node) (mkWorld (tokenColors w) [] [])))%list.
Proof.
  rewrite !Property_reports. rewrite !getToken_eval. simpl tokenColors.
  destruct (key_name node) as [name|]; [|now rewrite app_nil_r].
  destruct (String.eqb name "color" && _); [reflexivity | now rewrite app_nil_r].
Qed.

Lemma Property_reports_length node w :
  (length (reports (exec (Property node) w)) <= S (length (reports w)))%nat.
Proof.
  rewrite Property_reports.
  destruct (key_name node) as [name|]; [|lia].
  destruct (String.eqb name "color" && _); [|lia].
  rewrite length_app. simpl. lia.
Qed.

End Traversal.

(** X9 -- diagnostics of a traversal.  The reports after visiting a list of
    nodes are the reports there were, followed, node by node in visiting
    order, by what each node gets on its own against the registry; so there
    is at most one new report for each node visited. *)
Theorem traverse_reports nodes : forall w,
  reports (exec (traverse Property nodes) w) =
  (reports w
   ++ flat_map (fun n => reports (exec (Property n) (mkWorld (tokenColors w) [] [])))
        nodes)%list /\
  (length (reports (exec (traverse Property nodes) w))
   <= length (reports w) + length nodes)%nat.
Proof.
  induction nodes as [|n rest IH]; intros w; simpl.
  - change (exec (ret tt) w) with w. rewrite app_nil_r. split; [reflexivity | lia].
  - rewrite exec_bind. destruct (IH (exec (Property n) w)) as [IHr IHl]. split.
    + rewrite IHr, Property_tokenColors, (Property_reports_frame n w).
      now rewrite <- app_assoc.
    + pose proof (Property_reports_length n w). lia.
Qed.

(** From calls to diagnostic: on fresh module state a node is reported
    exactly when its key is named [color] and its value is the value of the
    last admitted call of some name. *)
Lemma calls_flagged_iff css node :
  reports (exec (visitor <- create css ;; visitor node) initial) <> [] <->
  key_name node = Some "color" /\
  exists v p before after,
    node_value node = LitString v /\
    css = (before ++ mkDecl p v :: after)%list /\
    Js.startsWith p "--" && colorMod.isColor v = true /\
    forall d, In d after -> prop d = p ->
              Js.startsWith (prop d) "--" && colorMod.isColor (value d) = false.
Proof.
  rewrite exec_bind, create_eval, Property_reports, create_reports.
  set (w := exec (create css) initial).
  assert (Hkeys : customKeys (tokenColors w))
    by apply create_customKeys, initial_customKeys.
  assert (Hget : forall p, get p (tokenColors w) = lastAdmitted p css).
  { intros p. unfold w. rewrite create_tokenColors, get_build. simpl.
    destruct (lastAdmitted p css); reflexivity. }
  split.
  - intros H. destruct (key_name node) as [name|]; [|now elim H].
    destruct (String.eqb name "color") eqn:En; [|now elim H].
    apply String.eqb_eq in En. subst name. split; [reflexivity|].
    destruct (eval (getToken (node_value node)) w) as [n|] eqn:Et; [|now elim H].
    rewrite getToken_eval in Et. apply find_some in Et. destruct Et as [Hin Heq].
    destruct (keys_get_Some _ _ Hin) as [v Hv]. rewrite Hv in Heq.
    destruct (node_value node) as [s| |printed]; try discriminate.
    simpl in Heq. apply String.eqb_eq in Heq. subst s.
    rewrite Hget in Hv.
    destruct (lastAdmitted_Some _ _ _ Hv) as (before & after & Hcss & Hadm & Hlast).
    exists v, n, before, after. repeat split; auto.
  - intros (Hk & v & p & before & after & Hv & Hcss & Hadm & Hlast).
    rewrite Hk, Hv. simpl String.eqb.
    assert (Hp : get p (tokenColors w) = Some v).
    { rewrite Hget, Hcss. now apply lastAdmitted_at. }
    destruct (getToken_complete _ _ _ Hp) as [n Hn]. rewrite Hn.
    pose proof (getToken_sound _ _ _ Hn) as Hgn.
    rewrite (custom_key_truthy _ _ Hkeys (get_Some_keys _ _ _ Hgn)).
    simpl. destruct (reports initial); discriminate.
Qed.

Lemma fresh_registry_missing_witness :
  (forall d, In d brandSheet -> prop d = "color" ->
             Js.startsWith (prop d) "--" && colorMod.isColor (value d) = false) /\
  get "color" (tokenColors (exec (create brandSheet) initial)) = None.
Proof.
  assert (H : forall d, In d brandSheet -> prop d = "color" ->
                Js.startsWith (prop d) "--" && colorMod.isColor (value d) = false).
  { intros d [<- | [<- | []]] Hp; [discriminate Hp | reflexivity]. }
  split; [exact H|].
  exact (proj2 (fresh_registry_missing brandSheet "color") H).
Defined.

(** ** The tokens [parseCss] finds *)

Section ParseCss.

Lemma string_app_assoc a : forall b c, (a ++ b) ++ c = a ++ (b ++ c).
Proof. induction a as [|x a IH]; intros b c; simpl; congruence. Qed.

Lemma prefix_app m : forall t, prefix m (m ++ t) = true.
Proof.
  induction m as [|c m IH]; intros t.
  - destruct t; reflexivity.
  - cbn [append prefix]. destruct (ascii_dec c c); [apply IH | congruence].
Qed.

Lemma prefix_decompose a : forall s,
  prefix a s = true -> s = a ++ Js.drop (String.length a) s.
Proof.
  induction a as [|c a IH]; intros s H.
  - reflexivity.
  - destruct s as [|c' s]; cbn [prefix] in H; [discriminate|].
    destruct (ascii_dec c c') as [->|]; [|discriminate].
    simpl. f_equal. now apply IH.
Qed.

Lemma takeWhile_decompose f : forall s,
  exists t, s = RegExp.takeWhile f s ++ t.
Proof.
  induction s as [|c s [t IH]]; simpl.
  - exists "". reflexivity.
  - destruct (f c); simpl.
    + exists t. congruence.
    + exists (String c s). reflexivity.
Qed.

Lemma substring_decompose n : forall r, exists t, r = substring 0 n r ++ t.
Proof.
  induction n as [|n IH]; intros r.
  - exists r. destruct r; reflexivity.
  - destruct r as [|c r]; simpl.
    + exists "". reflexivity.
    + destruct (IH r) as [t Ht]. exists t. congruence.
Qed.

Lemma lastClose_Some : forall r n,
  RegExp.lastClose r = Some n -> substring 0 (S n) r = substring 0 n r ++ ")".
Proof.
  induction r as [|c r IH]; intros n H; cbn [RegExp.lastClose] in H; [discriminate|].
  destruct (RegExp.lastClose r) as [n'|].
  - injection H as <-. cbn [substring]. cbn [substring] in IH.
    rewrite (IH n' eq_refl). reflexivity.
  - destruct (Ascii.eqb c ")") eqn:E; [|discriminate]. injection H as <-.
    apply Ascii.eqb_eq in E. subst c. destruct r; reflexivity.
Qed.

Lemma allChars_takeWhile f : forall s, allChars f (RegExp.takeWhile f s) = true.
Proof.
  induction s as [|c s IH]; simpl; auto.
  destruct (f c) eqn:E; simpl; auto. now rewrite E.
Qed.

Lemma allChars_substring f n : forall r,
  allChars f r = true -> allChars f (substring 0 n r) = true.
Proof.
  induction n as [|n IH]; intros [|c r] H; simpl in *; auto.
  apply andb_prop in H. destruct H as [-> H]. simpl. auto.
Qed.

(** A match of the first expression: its shape and its place. *)
Lemma cssRegex_shape s m :
  RegExp.cssRegex s = Some m ->
  exists body rest,
    m = "var(--" ++ body ++ ")" /\ body <> "" /\
    allChars (fun c => negb (RegExp.isSpace c)) body = true /\
    s = m ++ rest.
Proof.
  unfold RegExp.cssRegex. destruct (prefix "var(--" s) eqn:Hp; [|discriminate].
  apply prefix_decompose in Hp. change (String.length "var(--") with 6%nat in Hp.
  pose proof (allChars_takeWhile (fun c => negb (RegExp.isSpace c)) (Js.drop 6 s)) as Hall.
  destruct (takeWhile_decompose (fun c => negb (RegExp.isSpace c)) (Js.drop 6 s))
    as [t1 Ht1].
  destruct (RegExp.takeWhile (fun c => negb (RegExp.isSpace c)) (Js.drop 6 s))
    as [|c run]; [discriminate|].
  destruct (RegExp.lastClose run) as [n|] eqn:En; [|discriminate].
  intros [= <-]. cbn [allChars] in Hall. apply andb_prop in Hall.
  destruct Hall as [Hc Hrun]. rewrite (lastClose_Some _ _ En).
  destruct (substring_decompose (S n) run) as [t2 Ht2].
  rewrite (lastClose_Some _ _ En) in Ht2.
  exists (String c (substring 0 n run)), (t2 ++ t1). repeat split.
  - discriminate.
  - cbn [allChars]. rewrite Hc. simpl. now apply allChars_substring.
  - rewrite Hp at 1. rewrite Ht1. rewrite Ht2 at 1.
    cbn [append]. now rewrite !string_app_assoc.
Qed.

(** A match of the second expression: its shape and its place. *)
Lemma scssRegex_shape s m :
  RegExp.scssRegex s = Some m ->
  exists name rest,
    m = "$" ++ name /\ name <> "" /\
    allChars RegExp.isWordOrHyphen name = true /\
    s = m ++ rest.
Proof.
  unfold RegExp.scssRegex. destruct s as [|c rest]; [discriminate|].
  destruct (Ascii.eqb c "$") eqn:E; [|discriminate].
  apply Ascii.eqb_eq in E. subst c.
  pose proof (allChars_takeWhile RegExp.isWordOrHyphen rest) as Hall.
  destruct (takeWhile_decompose RegExp.isWordOrHyphen rest) as [t Ht].
  destruct (RegExp.takeWhile RegExp.isWordOrHyphen rest) as [|c' run];
    [discriminate|].
  intros [= <-]. exists (String c' run), t. repeat split; auto.
  - discriminate.
  - cbn [append]. cbn [append] in Ht. congruence.
Qed.

(** Every match of the scan is a match of the expression somewhere. *)
Lemma matchAll_In re m : forall s skip,
  In m (RegExp.matchAll re skip s) ->
  exists k, (k <= String.length s)%nat /\ re (Js.drop k s) = Some m.
Proof.
  induction s as [|c s IH]; intros skip H.
  - destruct skip; cbn [RegExp.matchAll] in H; [|destruct H].
    destruct (re "") as [m'|] eqn:E; [|destruct H].
    destruct H as [<- | []]. exists 0%nat. split; [lia | exact E].
  - assert (Hrest : forall skip', In m (RegExp.matchAll re skip' s) ->
               exists k, (k <= String.length (String c s))%nat /\
                         re (Js.drop k (String c s)) = Some m).
    { intros skip' H'. destruct (IH _ H') as (k & Hk & Hm).
      exists (S k). simpl. split; [lia | exact Hm]. }
    destruct skip; cbn [RegExp.matchAll] in H; [|eauto].
    destruct (re (String c s)) as [m'|] eqn:E; [|eauto].
    destruct H as [<- | H]; [|eauto].
    exists 0%nat. split; [lia | exact E].
Qed.

Lemma orEmpty_match re s :
  orEmpty (RegExp.match_ re s) = RegExp.matchAll re 0 s.
Proof.
  unfold RegExp.match_. destruct (RegExp.matchAll re 0 s); reflexivity.
Qed.

Lemma uniqueOf_fold xs : forall acc,
  NoDup acc ->
  NoDup (fold_left
           (fun acc x => if existsb (String.eqb x) acc then acc else (acc ++ [x])%list)
           xs acc) /\
  forall x,
    In x (fold_left
            (fun acc x => if existsb (String.eqb x) acc then acc else (acc ++ [x])%list)
            xs acc) <-> In x acc \/ In x xs.
Proof.
  induction xs as [|a xs IH]; intros acc Hnd; simpl.
  - split; [exact Hnd | tauto].
  - destruct (existsb (String.eqb a) acc) eqn:E.
    + destruct (IH acc Hnd) as [H1 H2]. split; [exact H1|].
      intros x. rewrite H2. apply existsb_eqb_In in E.
      split; [tauto|]. intros [H | [<- | H]]; auto.
    + assert (Hnd' : NoDup (acc ++ [a])).
      { apply NoDup_app; auto.
        - constructor; [intros [] | constructor].
        - intros y Hy [<- | []]. apply existsb_eqb_In in Hy. congruence. }
      destruct (IH _ Hnd') as [H1 H2]. split; [exact H1|].
      intros x. rewrite H2, in_app_iff. simpl. tauto.
Qed.

Lemma uniqueOf_NoDup xs : NoDup (uniqueOf xs).
Proof. apply uniqueOf_fold. constructor. Qed.

Lemma uniqueOf_In xs x : In x (uniqueOf xs) <-> In x xs.
Proof.
  unfold uniqueOf. rewrite (proj2 (uniqueOf_fold xs [] (NoDup_nil _))). simpl. tauto.
Qed.

Lemma parseCss_In css tok :
  In tok (parseCss css) <->
  In tok (RegExp.matchAll RegExp.cssRegex 0 css) \/
  In tok (RegExp.matchAll RegExp.scssRegex 0 css).
Proof.
  unfold parseCss. rewrite in_app_iff, !uniqueOf_In, !orEmpty_match. tauto.
Qed.

Lemma occurs_at_of_match s k m rest :
  (k <= String.length s)%nat -> Js.drop k s = m ++ rest -> occurs_at m s k.
Proof.
  intros Hk H. apply occurs_at_iff. split; auto. rewrite H. apply prefix_app.
Qed.

End ParseCss.

(** X11 -- [parseCss] answers each token once.  The array has no
    element twice, as its documentation says. *)
Theorem parseCss_unique css : NoDup (parseCss css).
Proof.
  unfold parseCss. apply NoDup_app; try apply uniqueOf_NoDup.
  intros tok H1 H2. rewrite uniqueOf_In, orEmpty_match in H1, H2.
  apply matchAll_In in H1. apply matchAll_In in H2.
  destruct H1 as (k1 & _ & H1). destruct H2 as (k2 & _ & H2).
  apply cssRegex_shape in H1. apply scssRegex_shape in H2.
  destruct H1 as (body & _ & -> & _). destruct H2 as (name & _ & H2 & _).
  discriminate H2.
Qed.

(** X12 -- every token is text of the input.  Each element of the array
    [parseCss] answers occurs in the string it was given. *)
Theorem parseCss_token_occurs css tok :
  In tok (parseCss css) -> exists k, occurs_at tok css k.
Proof.
  intros H. apply parseCss_In in H. destruct H as [H | H];
    apply matchAll_In in H; destruct H as (k & Hk & H); exists k.
  - apply cssRegex_shape in H. destruct H as (_ & rest & _ & _ & _ & H).
    eapply occurs_at_of_match; eauto.
  - apply scssRegex_shape in H. destruct H as (_ & rest & _ & _ & _ & H).
    eapply occurs_at_of_match; eauto.
Qed.

Lemma parseCss_token_occurs_witness :
  In "$gap" (parseCss "a { margin: $gap; color: var(--ink) }") /\
  exists k, occurs_at "$gap" "a { margin: $gap; color: var(--ink) }" k.
Proof.
  assert (H : In "$gap" (parseCss "a { margin: $gap; color: var(--ink) }"))
    by (right; left; reflexivity).
  split; [exact H|]. exact (parseCss_token_occurs _ _ H).
Defined.

(** X13 -- the two kinds of token.  An element of the array is either
    [var(--], a non-empty text without white space, and [)], or a dollar
    sign and a non-empty name of letters, digits, underscores and hyphens. *)
Theorem parseCss_token_shape css tok :
  In tok (parseCss css) ->
  (exists body,
     tok = "var(--" ++ body ++ ")" /\ body <> "" /\
     allChars (fun c => negb (RegExp.isSpace c)) body = true) \/
  (exists name,
     tok = "$" ++ name /\ name <> "" /\
     allChars RegExp.isWordOrHyphen name = true).
Proof.
  intros H. apply parseCss_In in H. destruct H as [H | H];
    apply matchAll_In in H; destruct H as (k & _ & H).
  - left. apply cssRegex_shape in H. destruct H as (body & _ & H1 & H2 & H3 & _).
    exists body. auto.
  - right. apply scssRegex_shape in H. destruct H as (name & _ & H1 & H2 & H3 & _).
    exists name. auto.
Qed.

Lemma parseCss_token_shape_witness :
  In "var(--ink)" (parseCss "a { margin: $gap; color: var(--ink) }") /\
  ((exists body,
      "var(--ink)" = "var(--" ++ body ++ ")" /\ body <> "" /\
      allChars (fun c => negb (RegExp.isSpace c)) body = true) \/
   (exists name,
      "var(--ink)" = "$" ++ name /\ name <> "" /\
      allChars RegExp.isWordOrHyphen name = true)).
Proof.
  assert (H : In "var(--ink)" (parseCss "a { margin: $gap; color: var(--ink) }"))
    by (left; reflexivity).
  split; [exact H|]. exact (parseCss_token_shape _ _ H).
Defined.

(** X14 -- nothing to find.  A string with neither [var(--] nor a dollar
    sign in it gives the empty array. *)
Theorem parseCss_no_marker css :
  Js.includes css "var(--" = false ->
  Js.includes css "$" = false ->
  parseCss css = [].
Proof.
  intros Hv Hd. destruct (parseCss css) as [|tok rest] eqn:E; [reflexivity|].
  exfalso.
  assert (Hin : In tok (parseCss css)) by (rewrite E; now left).
  apply parseCss_In in Hin. destruct Hin as [H | H];
    apply matchAll_In in H; destruct H as (k & Hk & H).
  - apply cssRegex_shape in H. destruct H as (body & rest' & -> & _ & _ & H).
    pose proof (occurs_at_of_match _ _ _ _ Hk H) as Ho.
    assert (Hinc : Js.includes css ("var(--" ++ body ++ ")") = true)
      by (apply includes_iff; eauto).
    apply includes_app_l in Hinc. congruence.
  - apply scssRegex_shape in H. destruct H as (name & rest' & -> & _ & _ & H).
    pose proof (occurs_at_of_match _ _ _ _ Hk H) as Ho.
    assert (Hinc : Js.includes css ("$" ++ name) = true)
      by (apply includes_iff; eauto).
    apply includes_app_l in Hinc. congruence.
Qed.

Lemma parseCss_no_marker_witness :
  Js.includes "a { color: #fff }" "var(--" = false /\
  Js.includes "a { color: #fff }" "$" = false /\
  parseCss "a { color: #fff }" = [].
Proof.
  split; [reflexivity|]. split; [reflexivity|].
  exact (parseCss_no_marker "a { color: #fff }" eq_refl eq_refl).
Defined.

Section Composition.

Lemma process_app a : forall b w,
  exec (process (a ++ b)) w = exec (process b) (exec (process a) w).
Proof.
  induction a as [|d a IH]; intros b w; simpl.
  - reflexivity.
  - rewrite !exec_bind. apply IH.
Qed.

End Composition.

(** The calls of two runs, one after the other, are the calls of one. *)
Lemma create_app A B w :
  exec (create A ;; create B) w = exec (create (A ++ B)) w.
Proof.
  unfold create. rewrite !exec_bind.
  change (exec (ret Property) ?x) with x.
  now rewrite process_app.
Qed.

(** ** The run of PostCSS and the calls it makes *)

Section Run.

Lemma Declaration_rewritten d w : eval (colorMod.Declaration d) w = rewritten d.
Proof. unfold rewritten. now rewrite !Declaration_eval. Qed.

Lemma rewritten_prop d : prop (rewritten d) = prop d.
Proof.
  unfold rewritten. rewrite Declaration_eval.
  destruct (colorMod.isColor (value d)); reflexivity.
Qed.

Lemma rewritten_no_marker d :
  colorMod.isColor (value d) = false -> rewritten d = d.
Proof. intros H. unfold rewritten. now rewrite Declaration_eval, H. Qed.

Lemma Declaration_no_marker d w :
  colorMod.isColor (value d) = false -> exec (colorMod.Declaration d) w = w.
Proof.
  intros H.
  unfold colorMod.Declaration, colorMod.recordToken, colorMod.rewriteValue,
    when, bind, exec.
  rewrite H, andb_false_r. unfold colorMod.isColor in H. rewrite H. reflexivity.
Qed.

Lemma process_no_marker calls : forall w,
  (forall d, In d calls -> colorMod.isColor (value d) = false) ->
  exec (process calls) w = w.
Proof.
  induction calls as [|d rest IH]; intros w H; simpl; [reflexivity|].
  rewrite exec_bind, IH.
  - apply Declaration_no_marker. apply H. now left.
  - intros d' Hd'. apply H. now right.
Qed.

(** One walk makes the calls of [callsOfWalk] and leaves the nodes [walked]. *)
Lemma walkSync_spec nodes : forall w,
  PostCSS.walkSync nodes w
  = (map walked nodes, exec (process (callsOfWalk nodes)) w).
Proof.
  induction nodes as [|n rest IH]; intros w; [reflexivity|].
  cbn [PostCSS.walkSync]. unfold bind at 1.
  unfold walked at 1, callsOfWalk. cbn [map filter].
  destruct (PostCSS.isClean n) eqn:Hc; cbn [negb].
  - unfold ret at 1. unfold bind. rewrite IH. reflexivity.
  - unfold bind at 1.
    pose proof (Declaration_rewritten (PostCSS.decl n) w) as He.
    unfold eval in He.
    destruct (colorMod.Declaration (PostCSS.decl n) w) as [d' w1] eqn:E.
    simpl in He. subst d'. unfold ret at 1. unfold bind. rewrite IH.
    cbn [map process]. rewrite exec_bind.
    unfold exec at 3. rewrite E. reflexivity.
Qed.

Lemma sync_step fuel nodes w :
  forallb PostCSS.isClean nodes = false ->
  PostCSS.sync (S fuel) nodes w
  = PostCSS.sync fuel (map walked nodes) (exec (process (callsOfWalk nodes)) w).
Proof.
  intros H. cbn [PostCSS.sync]. rewrite H. unfold bind.
  now rewrite walkSync_spec.
Qed.

(** A run that ends has made the calls of [callsOf]. *)
Lemma sync_spec fuel : forall nodes w,
  match callsOf fuel nodes with
  | Some calls =>
      eval (PostCSS.sync fuel nodes) w <> None /\
      exec (PostCSS.sync fuel nodes) w = exec (process calls) w
  | None => eval (PostCSS.sync fuel nodes) w = None
  end.
Proof.
  induction fuel as [|fuel IH]; intros nodes w.
  - cbn [callsOf PostCSS.sync]. destruct (forallb PostCSS.isClean nodes).
    + split; [discriminate | reflexivity].
    + reflexivity.
  - cbn [callsOf]. destruct (forallb PostCSS.isClean nodes) eqn:Hc.
    + cbn [PostCSS.sync]. rewrite Hc. split; [discriminate | reflexivity].
    + unfold eval, exec. rewrite (sync_step fuel nodes w Hc).
      fold (eval (PostCSS.sync fuel (map walked nodes))
                 (exec (process (callsOfWalk nodes)) w)).
      fold (exec (PostCSS.sync fuel (map walked nodes))
                 (exec (process (callsOfWalk nodes)) w)).
      specialize (IH (map walked nodes) (exec (process (callsOfWalk nodes)) w)).
      destruct (callsOf fuel (map walked nodes)) as [later|]; [|exact IH].
      destruct IH as [IH1 IH2]. split; [exact IH1|].
      rewrite IH2. symmetry. apply process_app.
Qed.

Lemma create_exec css w : exec (create css) w = exec (process css) w.
Proof. unfold create. now rewrite exec_bind. Qed.

(** [createFromSheet] is [create] on the calls of the run. *)
Lemma createFromSheet_spec fuel sheet w :
  match callsOf fuel (PostCSS.parsed sheet) with
  | Some calls =>
      eval (createFromSheet fuel sheet) w <> None /\
      exec (createFromSheet fuel sheet) w = exec (create calls) w
  | None => eval (createFromSheet fuel sheet) w = None
  end.
Proof.
  pose proof (sync_spec fuel (PostCSS.parsed sheet) w) as H.
  unfold createFromSheet, eval, exec, bind in *.
  destruct (PostCSS.sync fuel (PostCSS.parsed sheet) w) as [[final|] w'];
    destruct (callsOf fuel (PostCSS.parsed sheet)) as [calls|]; simpl in *.
  - destruct H as [_ H]. split; [discriminate|].
    rewrite H. symmetry. apply create_exec.
  - discriminate.
  - destruct H as [H _]. now elim H.
  - reflexivity.
Qed.

Lemma callsOfWalk_parsed sheet : callsOfWalk (PostCSS.parsed sheet) = sheet.
Proof.
  unfold callsOfWalk, PostCSS.parsed.
  induction sheet as [|d rest IH]; simpl; congruence.
Qed.

Lemma callsOf_clean fuel nodes :
  forallb PostCSS.isClean nodes = true -> callsOf fuel nodes = Some [].
Proof. intros H. destruct fuel; simpl; now rewrite H. Qed.

(** The calls of a run begin with the declarations of the style sheet. *)
Lemma callsOf_parsed fuel sheet calls :
  callsOf fuel (PostCSS.parsed sheet) = Some calls ->
  exists later,
    calls = (sheet ++ later)%list /\
    (later = [] \/
     exists fuel', callsOf fuel' (map walked (PostCSS.parsed sheet)) = Some later).
Proof.
  destruct sheet as [|d rest].
  - rewrite callsOf_clean by reflexivity. intros [= <-]. exists []. auto.
  - assert (Hd : forallb PostCSS.isClean (PostCSS.parsed (d :: rest)) = false)
      by reflexivity.
    destruct fuel as [|fuel]; cbn [callsOf]; rewrite Hd; [discriminate|].
    destruct (callsOf fuel (map walked (PostCSS.parsed (d :: rest)))) as [later|] eqn:E;
      [|discriminate].
    rewrite callsOfWalk_parsed. intros [= <-]. exists later. eauto.
Qed.

(** Names picked by [sel]: a node that is not clean has no color marker. *)
Lemma walked_unmarked (sel : string -> Prop) n :
  (sel (prop (PostCSS.decl n)) -> PostCSS.isClean n = false ->
   colorMod.isColor (value (PostCSS.decl n)) = false) ->
  sel (prop (PostCSS.decl (walked n))) -> PostCSS.isClean (walked n) = true.
Proof.
  intros H. unfold walked. destruct (PostCSS.isClean n) eqn:Hc; [auto|].
  cbn [PostCSS.decl PostCSS.isClean]. rewrite rewritten_prop. intros Hs.
  rewrite (rewritten_no_marker _ (H Hs eq_refl)). apply String.eqb_refl.
Qed.

Lemma callsOf_unmarked (sel : string -> Prop) fuel : forall nodes calls,
  (forall n, In n nodes -> sel (prop (PostCSS.decl n)) ->
             PostCSS.isClean n = false ->
             colorMod.isColor (value (PostCSS.decl n)) = false) ->
  callsOf fuel nodes = Some calls ->
  forall d, In d calls -> sel (prop d) -> colorMod.isColor (value d) = false.
Proof.
  induction fuel as [|fuel IH]; intros nodes calls Hq; cbn [callsOf];
    destruct (forallb PostCSS.isClean nodes); try discriminate;
    try (intros [= <-] d []).
  destruct (callsOf fuel (map walked nodes)) as [later|] eqn:E; [|discriminate].
  intros [= <-] d Hd Hs. apply in_app_or in Hd. destruct Hd as [Hd | Hd].
  - unfold callsOfWalk in Hd. apply in_map_iff in Hd.
    destruct Hd as (n & <- & Hn). apply filter_In in Hn. destruct Hn as [Hn Hc].
    apply negb_true_iff in Hc. auto.
  - refine (IH _ _ _ E d Hd Hs). intros n Hn Hs' Hc.
    apply in_map_iff in Hn. destruct Hn as (n0 & <- & Hn0).
    rewrite (walked_unmarked sel n0 (Hq n0 Hn0) Hs') in Hc. discriminate.
Qed.

Lemma first_walk_unmarked (sel : string -> Prop) sheet :
  (forall d, In d sheet -> sel (prop d) -> settled d = true) ->
  forall n, In n (map walked (PostCSS.parsed sheet)) ->
            sel (prop (PostCSS.decl n)) -> PostCSS.isClean n = false ->
            colorMod.isColor (value (PostCSS.decl n)) = false.
Proof.
  intros H n Hn. apply in_map_iff in Hn. destruct Hn as (n0 & <- & Hn0).
  unfold PostCSS.parsed in Hn0. apply in_map_iff in Hn0.
  destruct Hn0 as (d & <- & Hd). unfold walked.
  cbn [PostCSS.decl PostCSS.isClean]. rewrite rewritten_prop. intros Hs Hc.
  specialize (H d Hd Hs). unfold settled in H. rewrite Hc in H.
  now apply negb_true_iff in H.
Qed.

(** What the run calls the hook on after the declarations of the style
    sheet, for the names whose declarations settle. *)
Lemma revisits_unmarked (sel : string -> Prop) sheet fuel calls :
  (forall d, In d sheet -> sel (prop d) -> settled d = true) ->
  callsOf fuel (PostCSS.parsed sheet) = Some calls ->
  exists later,
    calls = (sheet ++ later)%list /\
    forall d, In d later -> sel (prop d) -> colorMod.isColor (value d) = false.
Proof.
  intros H Hc. destruct (callsOf_parsed _ _ _ Hc) as (later & -> & [-> | [f Hf]]).
  - exists []. split; [reflexivity | intros d []].
  - exists later. split; [reflexivity|].
    exact (callsOf_unmarked sel f _ _ (first_walk_unmarked sel sheet H) Hf).
Qed.

(** A style sheet whose declarations all settle is done in two walks. *)
Lemma settled_two_walks sheet fuel :
  (forall d, In d sheet -> settled d = true) ->
  (2 <= fuel)%nat -> callsOf fuel (PostCSS.parsed sheet) <> None.
Proof.
  intros H Hf. destruct fuel as [|[|fuel]]; try lia.
  cbn [callsOf]. destruct (forallb PostCSS.isClean (PostCSS.parsed sheet));
    [discriminate|].
  destruct (forallb PostCSS.isClean (map walked (PostCSS.parsed sheet)));
    [discriminate|].
  rewrite callsOf_clean; [discriminate|].
  apply forallb_forall. intros n Hn. apply in_map_iff in Hn.
  destruct Hn as (n0 & <- & Hn0).
  apply (walked_unmarked (fun _ => True)); auto.
  intros _. apply (first_walk_unmarked (fun _ => True) sheet); auto.
Qed.

(** On such a style sheet the run is the hook on each declaration once. *)
Lemma settled_run sheet fuel w :
  (forall d, In d sheet -> settled d = true) ->
  (2 <= fuel)%nat ->
  eval (createFromSheet fuel sheet) w <> None /\
  exec (createFromSheet fuel sheet) w = exec (create sheet) w.
Proof.
  intros H Hf. pose proof (createFromSheet_spec fuel sheet w) as Hs.
  pose proof (settled_two_walks sheet fuel H Hf) as Ht.
  destruct (callsOf fuel (PostCSS.parsed sheet)) as [calls|] eqn:E; [|now elim Ht].
  destruct Hs as [Hs1 Hs2]. split; [exact Hs1|].
  destruct (revisits_unmarked (fun _ => True) sheet fuel calls
              (fun d Hd _ => H d Hd) E) as (later & -> & Hl).
  rewrite Hs2, !create_exec, process_app.
  apply process_no_marker. intros d Hd. now apply Hl.
Qed.

Lemma lastAdmitted_app p a : forall b,
  lastAdmitted p (a ++ b) =
  match lastAdmitted p b with
  | Some v => Some v
  | None => lastAdmitted p a
  end.
Proof.
  induction a as [|d a IH]; intros b; simpl.
  - destruct (lastAdmitted p b); reflexivity.
  - rewrite IH. destruct (lastAdmitted p b); reflexivity.
Qed.

(** For a name whose declarations settle, the registry after a run reads as
    after the hook on each declaration of the style sheet once. *)
Lemma settled_name_lookup sheet fuel w p :
  (forall d, In d sheet -> prop d = p -> settled d = true) ->
  eval (createFromSheet fuel sheet) w <> None ->
  get p (tokenColors (exec (createFromSheet fuel sheet) w))
  = get p (tokenColors (exec (create sheet) w)).
Proof.
  intros H Hrun. pose proof (createFromSheet_spec fuel sheet w) as Hs.
  destruct (callsOf fuel (PostCSS.parsed sheet)) as [calls|] eqn:E;
    [|now elim Hrun].
  destruct Hs as [_ Hs].
  destruct (revisits_unmarked (fun q => q = p) sheet fuel calls H E)
    as (later & -> & Hl).
  rewrite Hs, !create_tokenColors, !get_build, lastAdmitted_app.
  rewrite (lastAdmitted_absent p later); [reflexivity|].
  intros d Hd Hp. unfold admitted. rewrite (Hl d Hd Hp). apply andb_false_r.
Qed.

End Run.

Section RunFacts.

Lemma createFromSheet_eval fuel sheet w :
  eval (createFromSheet fuel sheet) w <> None ->
  eval (createFromSheet fuel sheet) w = Some Property.
Proof.
  unfold createFromSheet, eval, bind.
  destruct (PostCSS.sync fuel (PostCSS.parsed sheet) w) as [[final|] w'];
    simpl; [reflexivity | intros H; now elim H].
Qed.



Lemma visit_one_reports node w :
  reports (exec (visitWith (Some Property) [node]) w)
  = reports (exec (Property node) w).
Proof.
  unfold visitWith. cbn [traverse]. rewrite exec_bind. reflexivity.
Qed.

End RunFacts.

(** Last-write-wins fails when a rewritten value still has a color marker:
    PostCSS calls the hook on it again, after the later declaration. *)
Lemma rewritten_value_overwrites_later :
  twoColorSheet = ([mkDecl "--a" "#111 #222"] ++ mkDecl "--a" "#333" :: [])%list /\
  Js.startsWith "--a" "--" = true /\
  colorMod.isColor "#333" = true /\
  eval (createFromSheet 3 twoColorSheet) initial <> None /\
  get "--a" (tokenColors (exec (createFromSheet 3 twoColorSheet) initial))
  = Some "color()111 #222" /\
  get "--a" (tokenColors (exec (createFromSheet 3 twoColorSheet) initial))
  <> Some "#333".
Proof.
  repeat split; try reflexivity; vm_compute; discriminate.
Qed.

(** C1, amended -- last write wins.  Take a style sheet with a declaration
    [(p, v)], [p] a custom-property name and [v] carrying a color marker, in
    which the hook's rewrite leaves every declaration named [p] either as it
    was or with no color marker.  Whenever the run of PostCSS ends, the
    sheet splits at the last admissible declaration named [p] and the
    registry maps [p] to its value, whatever the registry held before.  And
    the run does end, in two walks, when the rewrite leaves every declaration
    of the sheet so. *)
Theorem registry_last_write_wins sheet p v :
  In (mkDecl p v) sheet ->
  Js.startsWith p "--" = true ->
  colorMod.isColor v = true ->
  (forall d, In d sheet -> prop d = p -> settled d = true) ->
  (forall fuel w,
     eval (createFromSheet fuel sheet) w <> None ->
     exists before v' after,
       sheet = (before ++ mkDecl p v' :: after)%list /\
       colorMod.isColor v' = true /\
       (forall d, In d after -> prop d = p -> colorMod.isColor (value d) = false) /\
       get p (tokenColors (exec (createFromSheet fuel sheet) w)) = Some v') /\
  ((forall d, In d sheet -> settled d = true) ->
   forall fuel w, (2 <= fuel)%nat ->
                  eval (createFromSheet fuel sheet) w <> None).
Proof.
  intros Hin Hp Hc Hset. split.
  - intros fuel w Hrun.
    destruct (lastAdmitted_defined p sheet (mkDecl p v) Hin eq_refl) as [v' Hlast].
    { now rewrite admitted_named. }
    destruct (lastAdmitted_Some _ _ _ Hlast)
      as (before & after & Hsheet & Hadm & Hafter).
    exists before, v', after. repeat split; auto.
    + now rewrite admitted_named in Hadm.
    + intros [pd vd] Hd Hpd. simpl in Hpd. subst pd.
      specialize (Hafter _ Hd eq_refl). now rewrite admitted_named in Hafter.
    + rewrite (settled_name_lookup sheet fuel w p Hset Hrun).
      rewrite create_tokenColors, get_build, Hlast. reflexivity.
  - intros Hall fuel w Hf. apply (settled_run sheet fuel w Hall Hf).
Qed.

Lemma registry_last_write_wins_witness :
  In (mkDecl "--a" "#111") twiceSheet /\
  Js.startsWith "--a" "--" = true /\
  colorMod.isColor "#111" = true /\
  (forall d, In d twiceSheet -> prop d = "--a" -> settled d = true) /\
  eval (createFromSheet 2 twiceSheet) initial <> None /\
  exists before v' after,
    twiceSheet = (before ++ mkDecl "--a" v' :: after)%list /\
    colorMod.isColor v' = true /\
    (forall d, In d after -> prop d = "--a" -> colorMod.isColor (value d) = false) /\
    get "--a" (tokenColors (exec (createFromSheet 2 twiceSheet) initial)) = Some v'.
Proof.
  assert (Hin : In (mkDecl "--a" "#111") twiceSheet) by (left; reflexivity).
  assert (Hall : forall d, In d twiceSheet -> settled d = true).
  { intros d [<- | [<- | []]]; reflexivity. }
  assert (Hrun : eval (createFromSheet 2 twiceSheet) initial <> None).
  { exact (proj2 (registry_last_write_wins twiceSheet "--a" "#111" Hin eq_refl eq_refl
                    (fun d Hd _ => Hall d Hd)) Hall 2%nat initial (le_n 2)). }
  split; [exact Hin|]. split; [reflexivity|]. split; [reflexivity|].
  split; [exact (fun d Hd _ => Hall d Hd)|]. split; [exact Hrun|].
  exact (proj1 (registry_last_write_wins twiceSheet "--a" "#111" Hin eq_refl eq_refl
                  (fun d Hd _ => Hall d Hd)) 2%nat initial Hrun).
Defined.

(** The registry does not always keep the text as written: the second call
    of the hook on a rewritten shadow records the rewritten text. *)
Lemma rewritten_text_in_registry :
  eval (createFromSheet 3 shadowSheet) initial <> None /\
  get "--shadow" (tokenColors (exec (createFromSheet 3 shadowSheet) initial))
  = Some "0 0 1px color()000, 0 0 2px #fff" /\
  ~ In (mkDecl "--shadow" "0 0 1px color()000, 0 0 2px #fff") shadowSheet.
Proof.
  split; [vm_compute; discriminate|]. split; [reflexivity|].
  intros [H | []]. discriminate H.
Qed.

(** C10, amended -- the registry keeps the text as written.  Within one
    call of the hook the value recorded for an admitted declaration is the
    value the declaration has when the call begins; the rewrite that follows
    leaves the registry as the recording step left it, so every value stored
    there stays, whatever the rewrite assigns to the declaration.  After a
    run on fresh module state, the value under a name is the value, as
    written, of a declaration of that name in the style sheet, provided the
    rewrite leaves every declaration of that name either as it was or with
    no color marker. *)
Theorem registry_holds_pre_rewrite_value d w sheet fuel p v :
  (let w1 := exec (colorMod.recordToken d) w in
   let w2 := exec (colorMod.Declaration d) w in
   (Js.startsWith (prop d) "--" = true ->
    colorMod.isColor (value d) = true ->
    get (prop d) (tokenColors w2) = Some (value d)) /\
   tokenColors w2 = tokenColors w1 /\
   (forall k v0, get k (tokenColors w1) = Some v0 -> get k (tokenColors w2) = Some v0) /\
   (forall w0, tokenColors (exec (colorMod.rewriteValue d) w0) = tokenColors w0)) /\
  ((forall d0, In d0 sheet -> prop d0 = p -> settled d0 = true) ->
   eval (createFromSheet fuel sheet) initial <> None ->
   get p (tokenColors (exec (createFromSheet fuel sheet) initial)) = Some v ->
   In (mkDecl p v) sheet).
Proof.
  split; [apply hook_records_before_rewrite|].
  intros Hset Hrun Hget.
  rewrite (settled_name_lookup sheet fuel initial p Hset Hrun) in Hget.
  rewrite create_tokenColors, get_build in Hget. simpl in Hget.
  destruct (lastAdmitted p sheet) as [v'|] eqn:E; [|discriminate].
  injection Hget as ->.
  destruct (lastAdmitted_Some _ _ _ E) as (before & after & -> & _).
  apply in_or_app. right. now left.
Qed.

Lemma registry_holds_pre_rewrite_value_witness :
  Js.startsWith (prop unclosedHex) "--" = true /\
  colorMod.isColor (value unclosedHex) = true /\
  get (prop unclosedHex) (tokenColors (exec (colorMod.Declaration unclosedHex) initial))
    = Some (value unclosedHex) /\
  value (eval (colorMod.Declaration unclosedHex) initial) <> value unclosedHex /\
  (forall d0, In d0 twiceSheet -> prop d0 = "--a" -> settled d0 = true) /\
  eval (createFromSheet 2 twiceSheet) initial <> None /\
  get "--a" (tokenColors (exec (createFromSheet 2 twiceSheet) initial)) = Some "#222" /\
  In (mkDecl "--a" "#222") twiceSheet.
Proof.
  assert (Hset : forall d0, In d0 twiceSheet -> prop d0 = "--a" -> settled d0 = true).
  { intros d0 [<- | [<- | []]] _; reflexivity. }
  assert (Hrun : eval (createFromSheet 2 twiceSheet) initial <> None)
    by (vm_compute; discriminate).
  split; [reflexivity|]. split; [reflexivity|]. split.
  { exact (proj1 (proj1 (registry_holds_pre_rewrite_value unclosedHex initial
                           twiceSheet 2 "--a" "#222")) eq_refl eq_refl). }
  split; [vm_compute; discriminate|].
  split; [exact Hset|]. split; [exact Hrun|]. split; [reflexivity|].
  exact (proj2 (registry_holds_pre_rewrite_value unclosedHex initial
                  twiceSheet 2 "--a" "#222") Hset Hrun eq_refl).
Defined.

(** X4 -- the console.  For a style sheet in which the rewrite leaves
    every declaration either as it was or with no color marker, the run
    writes one line for each declaration whose value has a color marker,
    custom property or not, in the order of the sheet, after the lines that
    were there. *)
Theorem createFromSheet_console sheet fuel w :
  (forall d, In d sheet -> settled d = true) ->
  (2 <= fuel)%nat ->
  console (exec (createFromSheet fuel sheet) w) =
  (console w
   ++ map logLineOf (filter (fun d => colorMod.isColor (value d)) sheet))%list.
Proof.
  intros Hall Hf. rewrite (proj2 (settled_run sheet fuel w Hall Hf)).
  rewrite create_exec. apply calls_console.
Qed.

Lemma createFromSheet_console_witness :
  (forall d, In d brandSheet -> settled d = true) /\
  (2 <= 2)%nat /\
  console (exec (createFromSheet 2 brandSheet) initial) =
  (console initial
   ++ map logLineOf (filter (fun d => colorMod.isColor (value d)) brandSheet))%list.
Proof.
  assert (Hall : forall d, In d brandSheet -> settled d = true).
  { intros d [<- | [<- | []]]; reflexivity. }
  split; [exact Hall|]. split; [exact (le_n 2)|].
  exact (createFromSheet_console brandSheet 2 initial Hall (le_n 2)).
Defined.

(** X10 -- from style sheet to diagnostic.  For a style sheet in which
    the rewrite leaves every declaration either as it was or with no color
    marker, on fresh module state, a node visited by the visitor that
    [create] returns is reported exactly when its key is named [color] and
    its value is a string that is the value of the last admitted declaration
    of some name in the style sheet. *)
Theorem flagged_iff_last_value sheet fuel node :
  (forall d, In d sheet -> settled d = true) ->
  (2 <= fuel)%nat ->
  (reports (exec (visitor <- createFromSheet fuel sheet ;; visitWith visitor [node])
                 initial) <> [] <->
   key_name node = Some "color" /\
   exists v p before after,
     node_value node = LitString v /\
     sheet = (before ++ mkDecl p v :: after)%list /\
     Js.startsWith p "--" && colorMod.isColor v = true /\
     forall d, In d after -> prop d = p ->
               Js.startsWith (prop d) "--" && colorMod.isColor (value d) = false).
Proof.
  intros Hall Hf. destruct (settled_run sheet fuel initial Hall Hf) as [Hrun Hexec].
  rewrite exec_bind, (createFromSheet_eval _ _ _ Hrun), visit_one_reports, Hexec.
  rewrite <- (calls_flagged_iff sheet node).
  now rewrite exec_bind, create_eval.
Qed.

Lemma flagged_iff_last_value_witness :
  (forall d, In d brandSheet -> settled d = true) /\
  (2 <= 2)%nat /\
  (key_name (mkNode (Some "color") (LitString "#112233")) = Some "color" /\
   exists v p before after,
     node_value (mkNode (Some "color") (LitString "#112233")) = LitString v /\
     brandSheet = (before ++ mkDecl p v :: after)%list /\
     Js.startsWith p "--" && colorMod.isColor v = true /\
     forall d, In d after -> prop d = p ->
               Js.startsWith (prop d) "--" && colorMod.isColor (value d) = false) /\
  reports (exec (visitor <- createFromSheet 2 brandSheet ;;
                 visitWith visitor [mkNode (Some "color") (LitString "#112233")])
                initial)
  <> [].
Proof.
  assert (Hall : forall d, In d brandSheet -> settled d = true).
  { intros d [<- | [<- | []]]; reflexivity. }
  assert (H : key_name (mkNode (Some "color") (LitString "#112233")) = Some "color" /\
   exists v p before after,
     node_value (mkNode (Some "color") (LitString "#112233")) = LitString v /\
     brandSheet = (before ++ mkDecl p v :: after)%list /\
     Js.startsWith p "--" && colorMod.isColor v = true /\
     forall d, In d after -> prop d = p ->
               Js.startsWith (prop d) "--" && colorMod.isColor (value d) = false).
  { split; [reflexivity|].
    exists "#112233", "--brand", [], [mkDecl "color" "#112233"].
    repeat split. intros d [<- | []] _. reflexivity. }
  split; [exact Hall|]. split; [exact (le_n 2)|]. split; [exact H|].
  exact (proj2 (flagged_iff_last_value brandSheet 2
                  (mkNode (Some "color") (LitString "#112233")) Hall (le_n 2)) H).
Defined.

(** X15 -- two builds are one build.  For style sheets A and B in which
    the rewrite leaves every declaration either as it was or with no color
    marker, calling [create] for A and then for B leaves the module state
    (registry, console, reports) exactly as one call for the declarations of
    A followed by those of B. *)
Theorem create_twice_is_create_appended A B fuel w :
  (forall d, In d A -> settled d = true) ->
  (forall d, In d B -> settled d = true) ->
  (2 <= fuel)%nat ->
  exec (createFromSheet fuel A ;; createFromSheet fuel B) w
  = exec (createFromSheet fuel (A ++ B)) w.
Proof.
  intros HA HB Hf.
  assert (HAB : forall d, In d (A ++ B) -> settled d = true).
  { intros d Hd. apply in_app_or in Hd. destruct Hd; auto. }
  rewrite exec_bind.
  rewrite (proj2 (settled_run A fuel w HA Hf)).
  rewrite (proj2 (settled_run B fuel _ HB Hf)).
  rewrite (proj2 (settled_run (A ++ B) fuel w HAB Hf)).
  rewrite <- create_app. now rewrite exec_bind.
Qed.

Lemma create_twice_is_create_appended_witness :
  (forall d, In d sheetA -> settled d = true) /\
  (forall d, In d sheetB -> settled d = true) /\
  (2 <= 2)%nat /\
  exec (createFromSheet 2 sheetA ;; createFromSheet 2 sheetB) initial
  = exec (createFromSheet 2 (sheetA ++ sheetB)) initial.
Proof.
  assert (HA : forall d, In d sheetA -> settled d = true)
    by (intros d [<- | []]; reflexivity).
  assert (HB : forall d, In d sheetB -> settled d = true)
    by (intros d [<- | []]; reflexivity).
  split; [exact HA|]. split; [exact HB|]. split; [exact (le_n 2)|].
  exact (create_twice_is_create_appended sheetA sheetB 2 initial HA HB (le_n 2)).
Defined.


